(** * zax: contextual zap fields carried in a context.Context

    A shallow embedding of [zax.go].  Go slices are headers (backing array,
    offset, length, capacity) into a store of backing arrays, so that the
    sharing created by the built-in [append] is visible; a context is the
    immutable chain of bindings that [context.WithValue] builds. *)

From stdpp Require Import gmap strings list.

(** ** zap fields *)

(** [zapcore.FieldType], the constructors that the package and its tests
    meet. *)
Inductive FieldType :=
  | UnknownType
  | ArrayMarshalerType
  | BoolType
  | Int64Type
  | StringType.

(** What the [Interface] member of a field holds: nothing, the string array
    that [zap.Strings] wraps, or some other value. *)
Inductive iface :=
  | INil
  | IStringArray (ss : list string)
  | IOther (n : nat).

(** [zapcore.Field]. *)
Record Field := mkField {
  Key : string;
  Typ : FieldType;
  Integer : Z;
  Str : string;
  Interface : iface
}.

(** [zap.Field{}] *)
Definition zeroField : Field := mkField "" UnknownType 0 "" INil.

Definition zap_String (key val : string) : Field :=
  mkField key StringType 0 val INil.

Definition zap_Int (key : string) (val : Z) : Field :=
  mkField key Int64Type val "" INil.

(** [zap.Strings(key, ss)] is [zap.Array(key, stringArray(ss))]. *)
Definition zap_Strings (key : string) (ss : list string) : Field :=
  mkField key ArrayMarshalerType 0 "" (IStringArray ss).

(** ** Slices and the store of backing arrays *)

(** A [[]zap.Field] value: the nil slice, or a header naming a backing
    array, the offset of the first element, the length and the capacity. *)
Inductive slice :=
  | SNil
  | SArr (a off len cap : nat).

Definition slen (s : slice) : nat :=
  match s with SNil => 0 | SArr _ _ n _ => n end.

Definition scap (s : slice) : nat :=
  match s with SNil => 0 | SArr _ _ _ c => c end.

(** The store: backing array [a] is the [a]-th entry. *)
Abbreviation heap := (list (list Field)).

(** Computations that read and write the store; [None] is a run-time
    panic, such as an index out of range. *)
Definition M (A : Type) : Type := heap -> option (A * heap).

Definition ret {A} (x : A) : M A := fun h => Some (x, h).

Definition bind {A B} (m : M A) (k : A -> M B) : M B :=
  fun h => match m h with
           | Some (x, h') => k x h'
           | None => None
           end.

#[global] Instance M_ret : MRet M := @ret.
#[global] Instance M_bind : MBind M := fun A B k m => bind m k.

(** The elements a slice denotes in a store. *)
Definition elems (h : heap) (s : slice) : option (list Field) :=
  match s with
  | SNil => Some []
  | SArr a o n c =>
      match h !! a with
      | Some arr => if decide (o + n <= length arr)
                    then Some (take n (drop o arr)) else None
      | None => None
      end
  end.

(** Reading all elements, as [xs...] and [range xs] do. *)
Definition read (s : slice) : M (list Field) :=
  fun h => match elems h s with
           | Some xs => Some (xs, h)
           | None => None
           end.

(** [s[i]], with the bounds check. *)
Definition index (s : slice) (i : nat) : M Field :=
  fun h => match s with
           | SNil => None
           | SArr a o n c =>
               if decide (i < n) then
                 match h !! a with
                 | Some arr => match arr !! (o + i) with
                               | Some f => Some (f, h)
                               | None => None
                               end
                 | None => None
                 end
               else None
           end.

(** [make([]zap.Field, 0, c)] *)
Definition make0 (c : nat) : M slice :=
  fun h => Some (SArr (length h) 0 0 c, h ++ [replicate c zeroField]).

(** ** Contexts *)

(** [type key string], private to the package. *)
Inductive key := mkKey (s : string).

Definition loggerKey : key := mkKey "zax".

(** [AbsentFieldsKey] is the zap field key used for an array of explicitly
    expected keys that could not be found in the provided context. *)
Definition AbsentFieldsKey : string := "_absentFields".

(** A context key is any comparable value: one of the package's own type
    [key], or a value of some other type. *)
Inductive ctxkey :=
  | PkgKey (k : key)
  | ForeignKey (n : nat).

(** A value bound in a context has a dynamic type: [[]zap.Field] or
    another one. *)
Inductive any :=
  | FieldsVal (s : slice)
  | OtherVal (n : nat).

#[global] Instance key_eq_dec : EqDecision key.
Proof. solve_decision. Defined.

#[global] Instance ctxkey_eq_dec : EqDecision ctxkey.
Proof. solve_decision. Defined.

(** [context.Context] values of the standard library: the empty root
    ([context.Background()], [context.TODO()]) and the chains that
    [context.WithValue] derives from it.  A derived context is a new node
    that points to its parent; cancellation and deadline nodes hand [Value]
    on to their parent and are left out, and so are contexts that a caller
    implements.  The nil value of the interface type is not in this type:
    [ctxval] below adds it, for the functions as they are called. *)
Inductive Context :=
  | Background
  | WithValue (parent : Context) (k : ctxkey) (val : any).

(** [ctx.Value(k)]: the innermost binding of [k], the nil interface
    ([None]) when there is none. *)
Fixpoint Value (ctx : Context) (k : ctxkey) : option any :=
  match ctx with
  | Background => None
  | WithValue parent k' val =>
      if decide (k' = k) then Some val else Value parent k
  end.

(** The comma-ok type assertion [v.([]zap.Field)]. *)
Definition asFields (v : option any) : option slice :=
  match v with
  | Some (FieldsVal s) => Some s
  | _ => None
  end.

(** The slice bound to a context under [loggerKey], if any. *)
Definition bound (ctx : Context) : option slice :=
  asFields (Value ctx (PkgKey loggerKey)).

(** ** The package *)

(** [Set]: add passed fields in context. *)
Definition Set_ (ctx : Context) (fields : slice) : Context :=
  WithValue ctx (PkgKey loggerKey) (FieldsVal fields).

(** [GetAll]: zap stored fields from context. *)
Definition GetAll (ctx : Context) : slice :=
  match bound ctx with
  | Some loggerFields => loggerFields
  | None => SNil
  end.

(** The [range] loop of [GetField]. *)
Fixpoint GetField_scan (loggerFields : list Field) (key : string)
  : Field * bool :=
  match loggerFields with
  | [] => (zeroField, false)
  | field :: rest =>
      if decide (Key field = key) then (field, true)
      else GetField_scan rest key
  end.

(** [GetField]: get a specific zap stored field from context by key. *)
Definition GetField (ctx : Context) (key : string) : M (Field * bool) :=
  match bound ctx with
  | Some loggerFields =>
      fs ← read loggerFields;
      mret (GetField_scan fs key)
  | None => mret (zeroField, false)
  end.

Section Zax.

(** The capacity the run time picks when [append] has to grow: a function
    of the old capacity and of the length needed.  The language only
    promises that the new array is large enough. *)
Variable growcap : nat -> nat -> nat.

(** The built-in [append(s, xs...)]: in place when the capacity allows,
    into a new backing array otherwise. *)
Definition append (s : slice) (xs : list Field) : M slice :=
  fun h =>
    let n := slen s + length xs in
    if decide (n <= scap s) then
      match s with
      | SNil => Some (SNil, h)
      | SArr a o l c =>
          match h !! a with
          | Some arr =>
              if decide (o + c <= length arr) then
                Some (SArr a o n c,
                      <[a := take (o + l) arr ++ xs ++ drop (o + n) arr]> h)
              else None
          | None => None
          end
      end
    else
      match elems h s with
      | Some old =>
          let c' := n `max` growcap (scap s) n in
          Some (SArr (length h) 0 n c',
                h ++ [old ++ xs ++ replicate (c' - n) zeroField])
      | None => None
      end.

(** [Append]: appending passed fields to the existing fields in
    context. *)
Definition Append (ctx : Context) (fields : slice) : M Context :=
  match bound ctx with
  | Some loggerFields =>
      xs ← read fields;
      fields' ← append loggerFields xs;
      mret (WithValue ctx (PkgKey loggerKey) (FieldsVal fields'))
  | None => mret (WithValue ctx (PkgKey loggerKey) (FieldsVal fields))
  end.

(** The [Append] of the earlier revision of the file, which had
    [append(fields, loggerFields...)]. *)
Definition Append_rev0 (ctx : Context) (fields : slice) : M Context :=
  match bound ctx with
  | Some loggerFields =>
      xs ← read loggerFields;
      fields' ← append fields xs;
      mret (WithValue ctx (PkgKey loggerKey) (FieldsVal fields'))
  | None => mret (WithValue ctx (PkgKey loggerKey) (FieldsVal fields))
  end.

(** The loop of [GetFields] over the requested keys; [absentKeys] is a
    slice of strings that the function makes and nobody else holds. *)
Fixpoint GetFields_loop (ctx : Context) (keys : list string)
    (fields : slice) (absentKeys : list string)
  : M (slice * list string) :=
  match keys with
  | [] => mret (fields, absentKeys)
  | key :: keys' =>
      '(field, ok) ← GetField ctx key;
      if ok : bool then
        fields' ← append fields [field];
        GetFields_loop ctx keys' fields' absentKeys
      else
        GetFields_loop ctx keys' fields (absentKeys ++ [key])
  end.

(** [GetFields]: the fields specified by keys. *)
Definition GetFields (ctx : Context) (keys : list string) : M slice :=
  fields ← make0 (length keys);
  '(fields, absentKeys) ← GetFields_loop ctx keys fields [];
  append fields [zap_Strings AbsentFieldsKey absentKeys].

(** The loop of [Prune]: [n] is [i + 1], so that the loop runs for
    [i = n - 1] down to [0]. *)
Fixpoint Prune_loop (loggerFields : slice) (n : nat)
    (prunedFields : slice) (seenKeys : gmap string bool) : M slice :=
  match n with
  | 0 => mret prunedFields
  | S i =>
      field ← index loggerFields i;
      prunedFields' ← (match seenKeys !! Key field with
                       | Some _ => mret prunedFields
                       | None => append prunedFields [field]
                       end);
      Prune_loop loggerFields i prunedFields'
                 (<[Key field := true]> seenKeys)
  end.

(** [Prune]: prune overwritten values from the logger context. *)
Definition Prune (ctx : Context) : M Context :=
  match bound ctx with
  | Some loggerFields =>
      prunedFields ← make0 (slen loggerFields);
      prunedFields ← Prune_loop loggerFields (slen loggerFields)
                                prunedFields ∅;
      mret (Set_ ctx prunedFields)
  | None => mret ctx
  end.

End Zax.

(** A growth policy for the examples: double the capacity, or take the
    needed length when doubling is not enough.  The gc run time also
    rounds the capacity up to an allocation size class, which this policy
    leaves out; the examples stay at sizes where both agree, and every
    general statement below holds for any policy. *)
Definition go_growcap (oldcap needed : nat) : nat :=
  if decide (oldcap + oldcap < needed) then needed else oldcap + oldcap.

(** ** The package as it is called *)

(** A value of the interface type [context.Context]: the nil interface, or
    a context. *)
Inductive ctxval :=
  | NilCtx
  | Ctx (c : Context).

(** A run-time panic. *)
Definition panic {A} : M A := fun _ => None.

(** [context.WithValue(parent, key, val)] panics on a nil parent. *)
Definition WithValue_call (parent : ctxval) (k : ctxkey) (val : any)
  : M ctxval :=
  match parent with
  | NilCtx => panic
  | Ctx c => mret (Ctx (WithValue c k val))
  end.

(** [ctx.Value(key)]: a method call, which panics on the nil interface. *)
Definition Value_call (ctx : ctxval) (k : ctxkey) : M (option any) :=
  match ctx with
  | NilCtx => panic
  | Ctx c => mret (Value c k)
  end.

(** [Set], called with an interface value. *)
Definition Set_call (ctx : ctxval) (fields : slice) : M ctxval :=
  WithValue_call ctx (PkgKey loggerKey) (FieldsVal fields).

(** [GetAll], called with an interface value. *)
Definition GetAll_call (ctx : ctxval) : M slice :=
  v ← Value_call ctx (PkgKey loggerKey);
  match asFields v with
  | Some loggerFields => mret loggerFields
  | None => mret SNil
  end.

(** [GetField], called with an interface value. *)
Definition GetField_call (ctx : ctxval) (key : string) : M (Field * bool) :=
  v ← Value_call ctx (PkgKey loggerKey);
  match asFields v with
  | Some loggerFields =>
      fs ← read loggerFields;
      mret (GetField_scan fs key)
  | None => mret (zeroField, false)
  end.

Section Calls.

Variable growcap : nat -> nat -> nat.

(** [Append], called with an interface value. *)
Definition Append_call (ctx : ctxval) (fields : slice) : M ctxval :=
  v ← Value_call ctx (PkgKey loggerKey);
  match asFields v with
  | Some loggerFields =>
      xs ← read fields;
      fields' ← append growcap loggerFields xs;
      WithValue_call ctx (PkgKey loggerKey) (FieldsVal fields')
  | None => WithValue_call ctx (PkgKey loggerKey) (FieldsVal fields)
  end.

(** The loop of [GetFields], called with an interface value: the context
    is first used in the first round. *)
Fixpoint GetFields_call_loop (ctx : ctxval) (keys : list string)
    (fields : slice) (absentKeys : list string)
  : M (slice * list string) :=
  match keys with
  | [] => mret (fields, absentKeys)
  | key :: keys' =>
      '(field, ok) ← GetField_call ctx key;
      if ok : bool then
        fields' ← append growcap fields [field];
        GetFields_call_loop ctx keys' fields' absentKeys
      else
        GetFields_call_loop ctx keys' fields (absentKeys ++ [key])
  end.

(** [GetFields], called with an interface value. *)
Definition GetFields_call (ctx : ctxval) (keys : list string) : M slice :=
  fields ← make0 (length keys);
  '(fields, absentKeys) ← GetFields_call_loop ctx keys fields [];
  append growcap fields [zap_Strings AbsentFieldsKey absentKeys].

(** [Prune], called with an interface value. *)
Definition Prune_call (ctx : ctxval) : M ctxval :=
  v ← Value_call ctx (PkgKey loggerKey);
  match asFields v with
  | Some loggerFields =>
      prunedFields ← make0 (slen loggerFields);
      prunedFields ← Prune_loop growcap loggerFields (slen loggerFields)
                                prunedFields ∅;
      Set_call ctx prunedFields
  | None => mret ctx
  end.

End Calls.

(** A computation on contexts, seen as one on interface values. *)
Definition as_ctxval (r : option (Context * heap)) : option (ctxval * heap) :=
  match r with
  | Some (c, h) => Some (Ctx c, h)
  | None => None
  end.

(** ** Well-formed slices *)

(** The backing array of a slice, if it has one. *)
Definition sarr (s : slice) : option nat :=
  match s with SNil => None | SArr a _ _ _ => Some a end.

(** A slice is valid in a store when its backing array is there and holds
    the whole capacity.  Every slice a Go program can hold is valid. *)
Definition valid (h : heap) (s : slice) : Prop :=
  match s with
  | SNil => True
  | SArr a o n c =>
      match h !! a with
      | Some arr => n <= c /\ o + c <= length arr
      | None => False
      end
  end.

(** A context is well formed in a store when the slice it binds, if any, is
    valid. *)
Definition ctx_ok (h : heap) (ctx : Context) : Prop :=
  match bound ctx with
  | Some s => valid h s
  | None => True
  end.

(** The elements a context shows: those of its bound slice, none when
    nothing is bound. *)
Definition shown (h : heap) (ctx : Context) : option (list Field) :=
  elems h (GetAll ctx).

(** ** Specification-side notions *)

(** The first field with a given key. *)
Definition first_with_key (key : string) (xs : list Field) : option Field :=
  head (filter (fun f => Key f = key) xs).

(** [f] is the last field with its key in [xs]. *)
Definition last_occurrence (f : Field) (xs : list Field) : Prop :=
  exists l1 l2, xs = l1 ++ f :: l2 /\ Key f ∉ Key <$> l2.

(** [f] is the first field with its key in [xs]. *)
Definition first_occurrence (f : Field) (xs : list Field) : Prop :=
  exists l1 l2, xs = l1 ++ f :: l2 /\ Key f ∉ Key <$> l1.

(** For each key, its last occurrence, in the order in which these
    occurrences stand in [xs]. *)
Fixpoint last_occurrences (xs : list Field) : list Field :=
  match xs with
  | [] => []
  | f :: rest =>
      if decide (Key f ∈ Key <$> rest) then last_occurrences rest
      else f :: last_occurrences rest
  end.

(** What the loop of [Prune] emits on the fields it visits, in visiting
    order, starting from a set of keys already seen. *)
Fixpoint prune_scan (seenKeys : gmap string bool) (visit : list Field)
  : list Field :=
  match visit with
  | [] => []
  | f :: rest =>
      match seenKeys !! Key f with
      | Some _ => prune_scan (<[Key f := true]> seenKeys) rest
      | None => f :: prune_scan (<[Key f := true]> seenKeys) rest
      end
  end.

(** The fields that [GetFields] collects, and the keys it reports absent. *)
Definition found_fields (xs : list Field) (keys : list string) : list Field :=
  omap (fun key => first_with_key key xs) keys.

Definition absent_keys (xs : list Field) (keys : list string) : list string :=
  filter (fun key => key ∉ Key <$> xs) keys.

(** The last field with a given key. *)
Definition last_with_key (key : string) (xs : list Field) : option Field :=
  last (filter (fun f => Key f = key) xs).

(** What a lookup reports for a field that was or was not found. *)
Definition reported (o : option Field) : Field * bool :=
  match o with
  | Some f => (f, true)
  | None => (zeroField, false)
  end.

(** The cells of [t] lie on another backing array than [s], or in front of
    the end of [s]. *)
Definition before_end (t s : slice) : Prop :=
  match t, s with
  | SArr a' o' l' _, SArr a o l _ => a' <> a \/ o' + l' <= o + l
  | _, _ => True
  end.

(** ** The helpers of the tests *)

(** [observer.LoggedEntry]: the message of a log record and the fields
    logged with it. *)
Record LoggedEntry := mkEntry {
  Message : string;
  EntryContext : list Field
}.

(** [assert.Fail] reports the failure to the test and returns [false]. *)
Definition assert_Fail : bool := false.

(** The inner loop of [AssertLogEntryExist], over the fields of one
    record. *)
Fixpoint entry_has (fields : list Field) (key value : string) : bool :=
  match fields with
  | [] => false
  | r :: rest =>
      if decide (Key r = key /\ Str r = value) then true
      else entry_has rest key value
  end.

(** The outer loop of [AssertLogEntryExist], over [l.recorded.All()]. *)
Fixpoint logs_have (logs : list LoggedEntry) (key value : string) : bool :=
  match logs with
  | [] => false
  | log :: rest =>
      if entry_has (EntryContext log) key value then true
      else logs_have rest key value
  end.

(** [AssertLogEntryExist], on the records that the observer holds. *)
Definition AssertLogEntryExist (recorded : list LoggedEntry)
    (key value : string) : bool :=
  if logs_have recorded key value then true
  else if decide (key = "" /\ value = "") then true
  else assert_Fail.

(** The inner loop of [AssertLogEntryKeyExist]. *)
Fixpoint entry_has_key (fields : list Field) (key : string) : bool :=
  match fields with
  | [] => false
  | r :: rest =>
      if decide (Key r = key) then true else entry_has_key rest key
  end.

(** The outer loop of [AssertLogEntryKeyExist]. *)
Fixpoint logs_have_key (logs : list LoggedEntry) (key : string) : bool :=
  match logs with
  | [] => false
  | log :: rest =>
      if entry_has_key (EntryContext log) key then true
      else logs_have_key rest key
  end.

(** [AssertLogEntryKeyExist], on the records that the observer holds. *)
Definition AssertLogEntryKeyExist (recorded : list LoggedEntry)
    (key : string) : bool :=
  if logs_have_key recorded key then true else assert_Fail.

(** ** Sample data *)

Definition f_trace : Field := zap_String "trace_id" "T1".
Definition f_span : Field := zap_String "span_id" "S1".
Definition f_a1 : Field := zap_Int "a" 1.
Definition f_a2 : Field := zap_Int "a" 2.
Definition f_b1 : Field := zap_Int "b" 1.
Definition f_c2 : Field := zap_Int "c" 2.

(** A store with the caller's two one-element slices of the scenario
    [Set(ctx0, [trace_id]); Append(ctx1, [span_id])]. *)
Definition store_trace : heap := [[f_trace]; [f_span]].

(** A store with the caller's slices [[a=1, a=2]], [[b=1]] and [[c=2]]. *)
Definition store_abc : heap := [[f_a1; f_a2]; [f_b1]; [f_c2]].

(** A store with the caller's slice [[a=1, b=1, a=2]]. *)
Definition store_aba : heap := [[f_a1; f_b1; f_a2]].

(** A store where the slice [[a=1]] sits in an array of two cells, beside
    the caller's slices [[b=1]] and [[c=2]]. *)
Definition store_spare : heap := [[f_a1; zeroField]; [f_b1]; [f_c2]].

(** A store with the caller's slice [[a=1, b=1]]. *)
Definition store_ab : heap := [[f_a1; f_b1]].

(** A store with one array of three cells that holds [[a=1, b=1]] and a
    spare cell. *)
Definition store_base : heap := [[f_a1; f_b1; zeroField]].

(** A store with the caller's slices [[a=1]] and [[a=2]]. *)
Definition store_aa : heap := [[f_a1]; [f_a2]].

(** Unfolding one step of a computation in [M]. *)
Ltac go_step :=
  unfold mbind, M_bind, bind, mret, M_ret, ret, read, make0; simpl.

(** ** The store: basic facts *)

Lemma valid_elems h s :
  valid h s -> exists xs, elems h s = Some xs /\ length xs = slen s.
Proof.
  destruct s as [|a o n c]; simpl.
  - exists []. done.
  - destruct (h !! a) as [arr|]; [|done]. intros [Hn Hc].
    rewrite decide_True by lia. eexists. split; [done|].
    rewrite length_take, length_drop. lia.
Qed.

Lemma elems_length h s xs : elems h s = Some xs -> length xs = slen s.
Proof.
  destruct s as [|a o n c]; simpl.
  - by intros [= <-].
  - destruct (h !! a) as [arr|]; [|done]. case_decide; [|done].
    intros [= <-]. rewrite length_take, length_drop. lia.
Qed.

Lemma valid_app h t s : valid h s -> valid (h ++ t) s.
Proof.
  destruct s as [|a o n c]; simpl; [done|].
  destruct (h !! a) as [arr|] eqn:E; [|done].
  by rewrite (lookup_app_l_Some _ _ _ _ E).
Qed.

Lemma elems_app h t s : valid h s -> elems (h ++ t) s = elems h s.
Proof.
  destruct s as [|a o n c]; simpl; [done|].
  destruct (h !! a) as [arr|] eqn:E; [|done].
  by rewrite (lookup_app_l_Some _ _ _ _ E).
Qed.

Lemma elems_insert_ne h a arr s :
  sarr s <> Some a -> elems (<[a:=arr]> h) s = elems h s.
Proof.
  destruct s as [|a' o n c]; simpl; [done|]. intros Hne.
  rewrite list_lookup_insert_ne by congruence. done.
Qed.

Lemma index_elems h s xs i f :
  elems h s = Some xs -> xs !! i = Some f -> index s i h = Some (f, h).
Proof.
  destruct s as [|a o n c]; simpl.
  - intros [= <-]. done.
  - destruct (h !! a) as [arr|]; [|done]. case_decide; [|done].
    intros [= <-] Hi. apply lookup_take_Some in Hi as [Hi Hlt].
    rewrite lookup_drop in Hi. rewrite decide_True by done. by rewrite Hi.
Qed.

(** The array that an in-place [append] leaves behind. *)
Lemma elems_written (arr xs : list Field) o l c :
  l + length xs <= c -> o + c <= length arr ->
  take (l + length xs)
       (drop o (take (o + l) arr ++ xs ++ drop (o + (l + length xs)) arr))
  = take l (drop o arr) ++ xs.
Proof.
  intros Hl Hc.
  rewrite drop_app_le by (rewrite length_take; lia).
  rewrite <- take_drop_commute.
  assert (length (take l (drop o arr)) = l) as Hlen
    by (rewrite length_take, length_drop; lia).
  rewrite app_assoc.
  rewrite take_app_le by (rewrite length_app, Hlen; lia).
  rewrite take_ge by (rewrite length_app, Hlen; lia). done.
Qed.

Lemma length_written (arr xs : list Field) o l c :
  l + length xs <= c -> o + c <= length arr ->
  length (take (o + l) arr ++ xs ++ drop (o + (l + length xs)) arr)
  = length arr.
Proof.
  intros Hl Hc. rewrite !length_app, length_take, length_drop. lia.
Qed.

Lemma valid_insert_length h a arr arr' s :
  h !! a = Some arr -> length arr' = length arr ->
  valid h s -> valid (<[a:=arr']> h) s.
Proof.
  intros Ha Hlen. destruct s as [|a' o n c]; simpl; [done|].
  destruct (decide (a = a')) as [<-|Hne].
  - rewrite Ha, list_lookup_insert_eq by (by eapply lookup_lt_Some).
    by rewrite Hlen.
  - by rewrite list_lookup_insert_ne.
Qed.

(** ** The built-in append *)

Section AppendFacts.

Variable growcap : nat -> nat -> nat.

(** With room in the backing array, [append] writes behind the slice and
    returns a longer header onto the same array; slices on other arrays are
    not touched. *)
Lemma append_inplace a o l c xs h old :
  valid h (SArr a o l c) -> l + length xs <= c ->
  elems h (SArr a o l c) = Some old ->
  exists h',
    append growcap (SArr a o l c) xs h
      = Some (SArr a o (l + length xs) c, h')
    /\ valid h' (SArr a o (l + length xs) c)
    /\ elems h' (SArr a o (l + length xs) c) = Some (old ++ xs)
    /\ length h' = length h
    /\ (forall t, valid h t -> valid h' t)
    /\ (forall t, sarr t <> Some a -> elems h' t = elems h t).
Proof.
  simpl. destruct (h !! a) as [arr|] eqn:Ha; [|done].
  intros [Hlc Hc] Hroom. rewrite decide_True by lia. intros [= <-].
  unfold append. simpl. rewrite decide_True by lia.
  rewrite Ha, decide_True by lia.
  eexists. split; [done|].
  assert (a < length h) as Hlt by (by eapply lookup_lt_Some).
  rewrite list_lookup_insert_eq by done.
  rewrite (length_written arr xs o l c) by lia.
  split; [lia|]. rewrite decide_True by lia.
  rewrite (elems_written arr xs o l c) by lia.
  split; [done|]. split; [by rewrite length_insert|]. split.
  - intros t. eapply valid_insert_length; [done|].
    by apply (length_written arr xs o l c).
  - intros t Ht. by apply elems_insert_ne.
Qed.

(** Without room, [append] copies into a new backing array; no existing
    array is written. *)
Lemma append_grow s xs h old :
  scap s < slen s + length xs -> elems h s = Some old ->
  exists c',
    append growcap s xs h
      = Some (SArr (length h) 0 (slen s + length xs) c',
              h ++ [old ++ xs
                      ++ replicate (c' - (slen s + length xs)) zeroField])
    /\ slen s + length xs <= c'.
Proof.
  intros Hroom Hold. unfold append. rewrite decide_False by lia.
  rewrite Hold. eexists. split; [done|]. lia.
Qed.

Lemma elems_fresh (h : heap) (ys pad : list Field) n c :
  n = length ys ->
  elems (h ++ [ys ++ pad]) (SArr (length h) 0 n c) = Some ys.
Proof.
  intros ->. simpl. rewrite list_lookup_middle by done.
  rewrite decide_True by (rewrite length_app; simpl; lia).
  by rewrite drop_0, take_app_length.
Qed.

Lemma valid_fresh (h : heap) (arr : list Field) n c :
  n <= c -> c <= length arr -> valid (h ++ [arr]) (SArr (length h) 0 n c).
Proof.
  intros Hn Hc. simpl. rewrite list_lookup_middle by done. lia.
Qed.

(** [append] never panics on a valid slice; the result holds the old
    elements followed by the new ones, and every slice stays valid. *)
Lemma append_spec s xs h old :
  valid h s -> elems h s = Some old ->
  exists s' h',
    append growcap s xs h = Some (s', h')
    /\ valid h' s'
    /\ elems h' s' = Some (old ++ xs)
    /\ slen s' = slen s + length xs
    /\ (forall t, valid h t -> valid h' t).
Proof.
  intros Hv Hold.
  destruct (decide (slen s + length xs <= scap s)) as [Hroom|Hroom].
  - destruct s as [|a o l c].
    + simpl in *. destruct xs; simpl in *; [|lia].
      injection Hold as <-. exists SNil, h. unfold append; simpl.
      done.
    + simpl in Hroom.
      destruct (append_inplace a o l c xs h old Hv Hroom Hold)
        as (h' & -> & Hv' & He' & _ & Hfr & _).
      by exists (SArr a o (l + length xs) c), h'.
  - destruct (append_grow s xs h old) as (c' & -> & Hc'); [lia|done|].
    pose proof (elems_length _ _ _ Hold) as Hlen.
    do 2 eexists. split; [done|]. split.
    + apply valid_fresh; [done|]. rewrite !length_app, length_replicate. lia.
    + split.
      * rewrite app_assoc. apply elems_fresh. rewrite length_app. lia.
      * split; [done|]. intros t. apply valid_app.
Qed.

End AppendFacts.

Lemma elems_app_Some (h t : heap) s xs :
  elems h s = Some xs -> elems (h ++ t) s = Some xs.
Proof.
  destruct s as [|a o n c]; simpl; [done|].
  destruct (h !! a) as [arr|] eqn:E; [|done].
  by rewrite (lookup_app_l_Some _ _ _ _ E).
Qed.

Lemma elems_bound h s xs a :
  elems h s = Some xs -> sarr s = Some a -> a < length h.
Proof.
  destruct s as [|a' o n c]; simpl; [done|]. intros He [= ->].
  destruct (h !! a) eqn:E; [|done]. by eapply lookup_lt_Some.
Qed.

(** ** Contexts: what is bound *)

Lemma bound_WithValue ctx s :
  bound (WithValue ctx (PkgKey loggerKey) (FieldsVal s)) = Some s.
Proof. reflexivity. Qed.

Lemma bound_Set ctx fields : bound (Set_ ctx fields) = Some fields.
Proof. apply bound_WithValue. Qed.

Lemma GetAll_bound ctx s : bound ctx = Some s -> GetAll ctx = s.
Proof. unfold GetAll. by intros ->. Qed.

Lemma shown_bound h ctx s : bound ctx = Some s -> shown h ctx = elems h s.
Proof. unfold shown. by intros ->%GetAll_bound. Qed.

Lemma shown_unbound h ctx : bound ctx = None -> shown h ctx = Some [].
Proof. unfold shown, GetAll. by intros ->. Qed.

(** ** The scan of GetField *)

Lemma GetField_scan_absent xs key :
  key ∉ Key <$> xs -> GetField_scan xs key = (zeroField, false).
Proof.
  induction xs as [|f xs IH]; simpl; [done|].
  rewrite not_elem_of_cons. intros [Hne Hnin].
  rewrite decide_False by congruence. auto.
Qed.

Lemma GetField_scan_present xs key :
  key ∈ Key <$> xs ->
  exists f, GetField_scan xs key = (f, true)
            /\ Key f = key /\ first_occurrence f xs.
Proof.
  induction xs as [|g xs IH]; simpl.
  - by intros ?%elem_of_nil.
  - intros Hin. destruct (decide (Key g = key)) as [Heq|Hne].
    + exists g. split; [done|]. split; [done|].
      exists [], xs. split; [done|]. simpl. apply not_elem_of_nil.
    + apply elem_of_cons in Hin as [Heq|Hin]; [congruence|].
      destruct (IH Hin) as (f & Hscan & Hk & l1 & l2 & -> & Hfirst).
      exists f. split; [done|]. split; [done|].
      exists (g :: l1), l2. split; [done|].
      simpl. rewrite not_elem_of_cons. split; [congruence|done].
Qed.

Lemma GetField_scan_first_with_key xs key :
  GetField_scan xs key
  = match first_with_key key xs with
    | Some f => (f, true)
    | None => (zeroField, false)
    end.
Proof.
  unfold first_with_key. induction xs as [|g xs IH]; simpl; [done|].
  rewrite filter_cons. destruct (decide (Key g = key)); simpl; done.
Qed.

Lemma first_with_key_None xs key :
  first_with_key key xs = None <-> key ∉ Key <$> xs.
Proof.
  unfold first_with_key. induction xs as [|g xs IH]; simpl.
  - split; [intros _; apply not_elem_of_nil|done].
  - rewrite filter_cons, not_elem_of_cons.
    destruct (decide (Key g = key)); simpl.
    + split; [done|]. intros [Hne _]. congruence.
    + rewrite IH. split; [|tauto]. intros ?. split; [congruence|done].
Qed.

Lemma GetField_shown h ctx key xs :
  shown h ctx = Some xs ->
  GetField ctx key h = Some (GetField_scan xs key, h).
Proof.
  unfold shown, GetAll, GetField. destruct (bound ctx) as [s|].
  - intros He. go_step. by rewrite He.
  - simpl. by intros [= <-].
Qed.

(** ** Last occurrences *)

Lemma last_occurrences_snoc xs x :
  last_occurrences (xs ++ [x])
  = filter (fun f => Key f <> Key x) (last_occurrences xs) ++ [x].
Proof.
  induction xs as [|g xs IH]; [done|].
  cbn [last_occurrences app]. rewrite fmap_app.
  - cbn [fmap list_fmap].
    destruct (decide (Key g ∈ Key <$> xs)) as [Hin|Hnin].
    + rewrite decide_True by (apply elem_of_app; by left). done.
    + destruct (decide (Key g = Key x)) as [Heq|Hne].
      * rewrite decide_True
          by (apply elem_of_app; right; rewrite Heq; apply list_elem_of_here).
        rewrite filter_cons, decide_False by tauto. done.
      * rewrite decide_False.
        { rewrite filter_cons, decide_True by done. simpl. by rewrite IH. }
        intros [?|Hx%list_elem_of_singleton]%elem_of_app; done.
Qed.

Lemma last_occurrences_keys xs k :
  k ∈ Key <$> last_occurrences xs <-> k ∈ Key <$> xs.
Proof.
  induction xs as [|g xs IH]; simpl; [done|].
  destruct (decide (Key g ∈ Key <$> xs)) as [Hin|Hnin].
  - rewrite IH, elem_of_cons. split; [tauto|]. intros [->|?]; done.
  - simpl. by rewrite !elem_of_cons, IH.
Qed.

Lemma last_occurrences_NoDup xs : NoDup (Key <$> last_occurrences xs).
Proof.
  induction xs as [|g xs IH]; simpl; [constructor|].
  destruct (decide (Key g ∈ Key <$> xs)) as [Hin|Hnin]; [done|].
  simpl. constructor; [|done]. by rewrite last_occurrences_keys.
Qed.

Lemma last_occurrences_last xs f :
  f ∈ last_occurrences xs -> last_occurrence f xs.
Proof.
  induction xs as [|g xs IH]; simpl.
  - by intros ?%elem_of_nil.
  - destruct (decide (Key g ∈ Key <$> xs)) as [Hin|Hnin].
    + intros (l1 & l2 & -> & Hl)%IH. by exists (g :: l1), l2.
    + intros [->|(l1 & l2 & -> & Hl)%IH]%elem_of_cons.
      * by exists [], xs.
      * by exists (g :: l1), l2.
Qed.

(** The scan of [Prune] over the reversed sequence emits the last
    occurrences, latest first, leaving out the keys seen before. *)
Lemma prune_scan_reverse xs : forall seenKeys : gmap string bool,
  prune_scan seenKeys (reverse xs)
  = reverse (filter (fun f => seenKeys !! Key f = None)
                    (last_occurrences xs)).
Proof.
  induction xs as [|x xs IH] using rev_ind; intros seenKeys; [done|].
  rewrite reverse_snoc, last_occurrences_snoc, filter_app, reverse_app.
  simpl. rewrite IH, list_filter_filter.
  rewrite (list_filter_iff
             (fun f => <[Key x:=true]> seenKeys !! Key f = None)
             (fun f => seenKeys !! Key f = None /\ Key f <> Key x)).
  2:{ intros f. rewrite lookup_insert_None. split; intros [? ?]; split; congruence. }
  rewrite filter_cons, filter_nil.
  destruct (seenKeys !! Key x) as [b|] eqn:Hx.
  - rewrite decide_False by done. done.
  - rewrite decide_True by done. done.
Qed.

Lemma prune_scan_all xs :
  prune_scan ∅ (reverse xs) = reverse (last_occurrences xs).
Proof.
  rewrite prune_scan_reverse. f_equal.
  induction (last_occurrences xs) as [|f l IH]; [done|].
  rewrite filter_cons, decide_True by apply lookup_empty. by rewrite IH.
Qed.

(** ** The loops *)

Section Loops.

Variable growcap : nat -> nat -> nat.

(** The loop of [Prune], run for the indices below [n] on a destination
    with room for them: it appends in place onto the destination what
    [prune_scan] emits, and touches no other array. *)
Lemma Prune_loop_spec loggerFields xs p c :
  forall n l seenKeys acc h,
    elems h loggerFields = Some xs ->
    sarr loggerFields <> Some p ->
    n <= length xs ->
    valid h (SArr p 0 l c) ->
    elems h (SArr p 0 l c) = Some acc ->
    l + n <= c ->
    exists l' h',
      Prune_loop growcap loggerFields n (SArr p 0 l c) seenKeys h
        = Some (SArr p 0 l' c, h')
      /\ valid h' (SArr p 0 l' c)
      /\ elems h' (SArr p 0 l' c)
         = Some (acc ++ prune_scan seenKeys (reverse (take n xs)))
      /\ length h' = length h
      /\ (forall t, valid h t -> valid h' t)
      /\ (forall t, sarr t <> Some p -> elems h' t = elems h t).
Proof.
  induction n as [|i IH]; intros l seenKeys acc h Hxs Hp Hn Hv Hacc Hroom.
  - exists l, h. rewrite take_0. simpl. rewrite app_nil_r. done.
  - destruct (lookup_lt_is_Some_2 xs i) as [f Hf]; [lia|].
    rewrite (take_S_r _ _ _ Hf), reverse_snoc.
    cbn [Prune_loop prune_scan]. go_step.
    rewrite (index_elems _ _ _ _ _ Hxs Hf).
    destruct (seenKeys !! Key f) as [b|] eqn:Hseen.
    + apply IH; [done|done|lia|done|done|lia].
    + destruct (append_inplace growcap p 0 l c [f] h acc Hv)
        as (h1 & Happ & Hv1 & He1 & Hlen1 & Hval1 & Hfr1);
        [simpl; lia|done|].
      cbn [length] in Happ, Hv1, He1. rewrite Happ.
      destruct (IH (l + 1) (<[Key f:=true]> seenKeys) (acc ++ [f]) h1)
        as (l' & h' & -> & Hv' & He' & Hlen' & Hval' & Hfr');
        [by rewrite Hfr1|done|lia|done|done|lia|].
      exists l', h'. split; [done|]. split; [done|].
      split; [rewrite <- app_assoc in He'; exact He'|].
      split; [lia|]. split; [auto|].
      intros t Ht. by rewrite Hfr', Hfr1.
Qed.

(** [Prune] on a context with a bound sequence: the new context binds a
    slice on a new array that holds the last occurrences, latest first. *)
Lemma Prune_bound h ctx loggerFields xs :
  bound ctx = Some loggerFields ->
  elems h loggerFields = Some xs ->
  exists pruned h',
    Prune growcap ctx h = Some (Set_ ctx pruned, h')
    /\ valid h' pruned
    /\ elems h' pruned = Some (reverse (last_occurrences xs))
    /\ (forall t, valid h t -> valid h' t)
    /\ (forall t ys, elems h t = Some ys -> elems h' t = Some ys).
Proof.
  intros Hb Hxs. unfold Prune. rewrite Hb. go_step.
  pose proof (elems_length _ _ _ Hxs) as Hlen.
  set (c := slen loggerFields) in *.
  set (h1 := h ++ [replicate c zeroField]).
  destruct (Prune_loop_spec loggerFields xs (length h) c c 0 ∅ [] h1)
    as (l' & h' & -> & Hv' & He' & Hlen' & Hval' & Hfr').
  - by apply elems_app_Some.
  - intros Ha. pose proof (elems_bound _ _ _ _ Hxs Ha). lia.
  - lia.
  - apply valid_fresh; [lia|]. by rewrite length_replicate.
  - by apply (elems_fresh h [] (replicate c zeroField) 0 c).
  - lia.
  - do 2 eexists. split; [done|]. split; [done|]. split.
    + rewrite He'. simpl. rewrite take_ge by lia. by rewrite prune_scan_all.
    + split.
      * intros t Ht. by apply Hval', valid_app.
      * intros t ys Ht. rewrite Hfr'; [by apply elems_app_Some|].
        intros Ha. pose proof (elems_bound _ _ _ _ Ht Ha). lia.
Qed.

(** The loop of [GetFields] on a destination with room for every key. *)
Lemma GetFields_loop_spec ctx xs p c :
  forall keys l absentKeys acc h,
    shown h ctx = Some xs ->
    sarr (GetAll ctx) <> Some p ->
    valid h (SArr p 0 l c) ->
    elems h (SArr p 0 l c) = Some acc ->
    l + length keys <= c ->
    exists l' h',
      GetFields_loop growcap ctx keys (SArr p 0 l c) absentKeys h
        = Some ((SArr p 0 l' c, absentKeys ++ absent_keys xs keys), h')
      /\ valid h' (SArr p 0 l' c)
      /\ elems h' (SArr p 0 l' c) = Some (acc ++ found_fields xs keys)
      /\ shown h' ctx = Some xs
      /\ (forall t, valid h t -> valid h' t).
Proof.
  induction keys as [|key keys IH];
    intros l absentKeys acc h Hxs Hp Hv Hacc Hroom.
  - exists l, h. simpl. go_step. rewrite !app_nil_r. done.
  - cbn [GetFields_loop]. go_step.
    rewrite (GetField_shown _ _ _ _ Hxs), GetField_scan_first_with_key.
    unfold found_fields, absent_keys. cbn [omap list_omap].
    rewrite filter_cons. simpl in Hroom.
    destruct (first_with_key key xs) as [f|] eqn:Hf.
    + rewrite decide_False.
      2:{ rewrite <- first_with_key_None, Hf. done. }
      destruct (append_inplace growcap p 0 l c [f] h acc Hv)
        as (h1 & Happ & Hv1 & He1 & Hlen1 & Hval1 & Hfr1);
        [simpl; lia|done|].
      cbn [length] in Happ, Hv1, He1. rewrite Happ.
      destruct (IH (l + 1) absentKeys (acc ++ [f]) h1)
        as (l' & h' & -> & Hv' & He' & Hs' & Hval');
        [by unfold shown; rewrite Hfr1|done|done|done|lia|].
      exists l', h'. split; [done|]. split; [done|].
      split; [rewrite <- app_assoc in He'; exact He'|]. split; [done|]. auto.
    + rewrite decide_True by (by apply first_with_key_None).
      destruct (IH l (absentKeys ++ [key]) acc h)
        as (l' & h' & -> & Hv' & He' & Hs' & Hval');
        [done|done|done|done|lia|].
      exists l', h'. rewrite <- app_assoc. done.
Qed.

End Loops.

(** ** Whole operations *)

Lemma ctx_ok_shown h ctx : ctx_ok h ctx -> exists xs, shown h ctx = Some xs.
Proof.
  unfold ctx_ok, shown, GetAll. destruct (bound ctx) as [s|].
  - intros (xs & Hxs & _)%valid_elems. eauto.
  - by exists [].
Qed.

Lemma ctx_ok_WithValue h ctx s :
  valid h s -> ctx_ok h (WithValue ctx (PkgKey loggerKey) (FieldsVal s)).
Proof. unfold ctx_ok. by rewrite bound_WithValue. Qed.

Section Operations.

Variable growcap : nat -> nat -> nat.

(** [Append] on a context with a bound sequence. *)
Lemma Append_bound h ctx loggerFields fields old xs :
  bound ctx = Some loggerFields ->
  valid h loggerFields ->
  elems h loggerFields = Some old ->
  elems h fields = Some xs ->
  exists s' h',
    Append growcap ctx fields h
      = Some (WithValue ctx (PkgKey loggerKey) (FieldsVal s'), h')
    /\ valid h' s'
    /\ elems h' s' = Some (old ++ xs)
    /\ slen s' = slen loggerFields + slen fields
    /\ (forall t, valid h t -> valid h' t).
Proof.
  intros Hb Hv Hold Hxs. unfold Append. rewrite Hb. go_step. rewrite Hxs.
  destruct (append_spec growcap loggerFields xs h old Hv Hold)
    as (s' & h' & -> & Hv' & He' & Hl' & Hval').
  exists s', h'. rewrite (elems_length _ _ _ Hxs) in Hl'. done.
Qed.

(** [Append] on a context without a bound sequence binds the slice it was
    given. *)
Lemma Append_unbound h ctx fields :
  bound ctx = None ->
  Append growcap ctx fields h
  = Some (WithValue ctx (PkgKey loggerKey) (FieldsVal fields), h).
Proof. intros Hb. unfold Append. by rewrite Hb. Qed.

(** The earlier [Append] put the existing fields behind the new ones. *)
Lemma Append_rev0_bound h ctx loggerFields fields old xs :
  bound ctx = Some loggerFields ->
  valid h fields ->
  elems h loggerFields = Some old ->
  elems h fields = Some xs ->
  exists s' h',
    Append_rev0 growcap ctx fields h
      = Some (WithValue ctx (PkgKey loggerKey) (FieldsVal s'), h')
    /\ elems h' s' = Some (xs ++ old).
Proof.
  intros Hb Hv Hold Hxs. unfold Append_rev0. rewrite Hb. go_step.
  rewrite Hold.
  destruct (append_spec growcap fields old h xs Hv Hxs)
    as (s' & h' & -> & Hv' & He' & Hl' & Hval').
  by exists s', h'.
Qed.

(** [GetFields]: the found fields, then the field that lists the absent
    keys. *)
Lemma GetFields_spec h ctx keys xs :
  shown h ctx = Some xs ->
  exists s h',
    GetFields growcap ctx keys h = Some (s, h')
    /\ valid h' s
    /\ elems h' s
       = Some (found_fields xs keys
                 ++ [zap_Strings AbsentFieldsKey (absent_keys xs keys)])
    /\ (forall t, valid h t -> valid h' t).
Proof.
  intros Hxs. unfold GetFields. go_step.
  set (c := length keys).
  set (h1 := h ++ [replicate c zeroField]).
  destruct (GetFields_loop_spec growcap ctx xs (length h) c keys 0 [] [] h1)
    as (l' & h2 & -> & Hv2 & He2 & Hs2 & Hval2).
  - by apply elems_app_Some.
  - intros Ha. pose proof (elems_bound _ _ _ _ Hxs Ha). lia.
  - apply valid_fresh; [lia|]. by rewrite length_replicate.
  - by apply (elems_fresh h [] (replicate c zeroField) 0 c).
  - lia.
  - simpl app.
    destruct (append_spec growcap (SArr (length h) 0 l' c)
                [zap_Strings AbsentFieldsKey (absent_keys xs keys)]
                h2 _ Hv2 He2)
      as (s' & h' & -> & Hv' & He' & Hl' & Hval').
    exists s', h'. split; [done|]. split; [done|]. split; [done|].
    intros t Ht. by apply Hval', Hval2, valid_app.
Qed.

(** X4. What does hold between siblings: when the parent binds nothing, or
    a slice without spare capacity, a second [Append] onto the parent
    writes no existing array, and the context returned by the first shows
    what it showed. *)
Lemma Append_sibling_frame h ctx F1 F2 c1 h1 c2 h2 :
  ctx_ok h ctx ->
  valid h F1 ->
  (forall s, bound ctx = Some s -> scap s = slen s) ->
  Append growcap ctx F1 h = Some (c1, h1) ->
  Append growcap ctx F2 h1 = Some (c2, h2) ->
  shown h2 c1 = shown h1 c1.
Proof.
  intros Hctx Hv1 Hfull HA1 HA2. unfold ctx_ok in Hctx.
  destruct (bound ctx) as [s|] eqn:Hb.
  - destruct (valid_elems h s Hctx) as (old & Hold & _).
    destruct (valid_elems h F1 Hv1) as (xs1 & Hxs1 & _).
    destruct (Append_bound h ctx s F1 old xs1 Hb Hctx Hold Hxs1)
      as (s1 & h1' & HA1' & Hvs1 & _ & _ & Hval1).
    rewrite HA1' in HA1. injection HA1 as <- <-.
    rewrite !(shown_bound _ _ s1) by apply bound_WithValue.
    revert HA2. unfold Append. rewrite Hb. go_step.
    destruct (elems h1' F2) as [xs2|]; [|done].
    specialize (Hfull s eq_refl).
    destruct (decide (length xs2 = 0)) as [Hz|Hnz].
    + apply length_zero_iff_nil in Hz as ->.
      unfold append. simpl. rewrite decide_True by lia.
      destruct s as [|a o l c]; [by intros [= <- <-]|].
      pose proof (Hval1 _ Hctx) as Hs. simpl in Hs, Hfull.
      destruct (h1' !! a) as [arr|] eqn:Ha; [|done].
      rewrite decide_True by lia. intros [= <- <-].
      f_equal. rewrite Nat.add_0_r, take_drop. by rewrite list_insert_id.
    + destruct (valid_elems h1' s (Hval1 _ Hctx)) as (old' & Hold' & _).
      destruct (append_grow growcap s xs2 h1' old') as (c' & -> & _);
        [lia|done|].
      intros [= <- <-]. by apply elems_app.
  - rewrite (Append_unbound h ctx F1 Hb) in HA1.
    injection HA1 as <- <-.
    rewrite (Append_unbound h ctx F2 Hb) in HA2.
    by injection HA2 as <- <-.
Qed.

End Operations.

(** * The specification, property by property *)

(** C5. For every context and every slice of fields, whatever was bound
    before: [GetAll (Set ctx F)] is exactly [F], the same slice, showing the
    same elements in every store. *)
Theorem Set_then_GetAll ctx fields :
  GetAll (Set_ ctx fields) = fields
  /\ forall h, shown h (Set_ ctx fields) = elems h fields.
Proof.
  assert (GetAll (Set_ ctx fields) = fields) as HG
    by (apply GetAll_bound, bound_Set).
  split; [done|]. intros h. unfold shown. by rewrite HG.
Qed.

(** C7. On a context with no bound field sequence, such as a fresh
    [Background], [GetAll] returns the nil slice: no elements, no panic. *)
Theorem GetAll_unbound ctx :
  bound ctx = None ->
  GetAll ctx = SNil /\ forall h, shown h ctx = Some [].
Proof.
  intros Hb. split.
  - unfold GetAll. by rewrite Hb.
  - intros h. by apply shown_unbound.
Qed.

Lemma GetAll_unbound_witness :
  GetAll Background = SNil /\ forall h, shown h Background = Some [].
Proof. apply (GetAll_unbound Background). reflexivity. Defined.

(** C10. On a context with no bound field sequence, [Prune] returns the
    very context it was given and leaves the store alone; nothing gets
    bound, so [GetAll] on the result is still the nil slice. *)
Theorem Prune_unbound growcap h ctx :
  bound ctx = None ->
  Prune growcap ctx h = Some (ctx, h)
  /\ forall ctx' h', Prune growcap ctx h = Some (ctx', h') ->
       ctx' = ctx /\ bound ctx' = None /\ GetAll ctx' = SNil.
Proof.
  intros Hb.
  assert (Prune growcap ctx h = Some (ctx, h)) as HP
    by (unfold Prune; by rewrite Hb).
  split; [done|]. intros ctx' h'. rewrite HP. intros [= <- <-].
  split; [done|]. split; [done|]. unfold GetAll. by rewrite Hb.
Qed.

Lemma Prune_unbound_witness :
  Prune go_growcap (WithValue Background (ForeignKey 7) (OtherVal 1)) []
    = Some (WithValue Background (ForeignKey 7) (OtherVal 1), [])
  /\ forall ctx' h',
       Prune go_growcap (WithValue Background (ForeignKey 7) (OtherVal 1)) []
         = Some (ctx', h') ->
       ctx' = WithValue Background (ForeignKey 7) (OtherVal 1)
       /\ bound ctx' = None /\ GetAll ctx' = SNil.
Proof.
  apply (Prune_unbound go_growcap []
           (WithValue Background (ForeignKey 7) (OtherVal 1))).
  reflexivity.
Defined.

(** C3. For every context and slices [F1], [F2] holding [xs1] and [xs2]:
    [GetAll (Append (Set ctx F1) F2)] shows [xs1 ++ xs2], the existing
    entries first then the new ones, of length [|F1| + |F2|]. *)
Theorem Append_after_Set_concat growcap h ctx F1 F2 xs1 xs2 :
  valid h F1 ->
  elems h F1 = Some xs1 ->
  elems h F2 = Some xs2 ->
  exists c h',
    Append growcap (Set_ ctx F1) F2 h = Some (c, h')
    /\ shown h' c = Some (xs1 ++ xs2)
    /\ slen (GetAll c) = slen F1 + slen F2
    /\ (forall f, f ∈ xs1 \/ f ∈ xs2 -> f ∈ xs1 ++ xs2)
    /\ length (xs1 ++ xs2) = length xs1 + length xs2.
Proof.
  intros Hv H1 H2.
  destruct (Append_bound growcap h (Set_ ctx F1) F1 F2 xs1 xs2
              (bound_Set ctx F1) Hv H1 H2)
    as (s' & h' & -> & Hv' & He' & Hl' & _).
  do 2 eexists. split; [done|].
  rewrite (shown_bound _ _ s') by apply bound_WithValue.
  rewrite (GetAll_bound _ s') by apply bound_WithValue.
  split; [done|]. split; [done|]. split.
  - intros f. by rewrite elem_of_app.
  - apply length_app.
Qed.

(** C6. [GetField] returns the first field of the bound sequence that has
    the key, with [ok = true]; when no field has the key, and so on every
    context with nothing bound, it returns the zero field and [false].  The
    store is only read. *)
Theorem GetField_first h ctx key xs :
  shown h ctx = Some xs ->
  (key ∈ Key <$> xs ->
   exists f, GetField ctx key h = Some ((f, true), h)
             /\ Key f = key /\ first_occurrence f xs)
  /\ (key ∉ Key <$> xs ->
      GetField ctx key h = Some ((zeroField, false), h)).
Proof.
  intros Hxs. rewrite (GetField_shown _ _ _ _ Hxs). split.
  - intros (f & -> & Hk & Hfirst)%GetField_scan_present. by exists f.
  - by intros ->%GetField_scan_absent.
Qed.

Lemma Append_after_Set_concat_witness :
  valid store_trace (SArr 0 0 1 1)
  /\ exists c h',
       Append go_growcap (Set_ Background (SArr 0 0 1 1)) (SArr 1 0 1 1)
              store_trace = Some (c, h')
       /\ shown h' c = Some ([f_trace] ++ [f_span])
       /\ slen (GetAll c) = 1 + 1
       /\ (forall f, f ∈ [f_trace] \/ f ∈ [f_span]
                     -> f ∈ [f_trace] ++ [f_span])
       /\ length ([f_trace] ++ [f_span]) = 1 + 1.
Proof.
  split; [simpl; lia|].
  apply (Append_after_Set_concat go_growcap store_trace Background
           (SArr 0 0 1 1) (SArr 1 0 1 1) [f_trace] [f_span]).
  - simpl; lia.
  - reflexivity.
  - reflexivity.
Defined.

Lemma GetField_first_witness :
  ("a" ∈ Key <$> [f_a1; f_a2] ->
   exists f,
     GetField (Set_ Background (SArr 0 0 2 2)) "a" store_abc
       = Some ((f, true), store_abc)
     /\ Key f = "a" /\ first_occurrence f [f_a1; f_a2])
  /\ ("a" ∉ Key <$> [f_a1; f_a2] ->
      GetField (Set_ Background (SArr 0 0 2 2)) "a" store_abc
        = Some ((zeroField, false), store_abc)).
Proof.
  apply (GetField_first store_abc (Set_ Background (SArr 0 0 2 2)) "a"
           [f_a1; f_a2]).
  reflexivity.
Defined.

(** C4. For every context and every list of requested keys, [GetFields]
    returns the fields found, in request order, followed by exactly one
    more field, the marker: its key is the constant [AbsentFieldsKey], that
    is ["_absentFields"], it is of the array type, and its value is the
    list, in request order, of the keys not found.  The marker is always
    there, also when that list is empty; with no key requested it is the
    whole result and lists nothing. *)
Theorem GetFields_absent_marker growcap h ctx keys xs :
  shown h ctx = Some xs ->
  exists s h' marker,
    GetFields growcap ctx keys h = Some (s, h')
    /\ elems h' s = Some (found_fields xs keys ++ [marker])
    /\ marker = mkField "_absentFields" ArrayMarshalerType 0 ""
                        (IStringArray (absent_keys xs keys))
    /\ Key marker = AbsentFieldsKey
    /\ Interface marker = IStringArray (absent_keys xs keys)
    /\ (forall f, f ∈ found_fields xs keys ->
          Key f ∈ keys /\ first_with_key (Key f) xs = Some f)
    /\ (forall key, key ∈ absent_keys xs keys <->
          key ∈ keys /\ key ∉ Key <$> xs)
    /\ (keys = [] ->
        elems h' s = Some [marker]
        /\ Interface marker = IStringArray []).
Proof.
  intros Hxs.
  destruct (GetFields_spec growcap h ctx keys xs Hxs)
    as (s & h' & -> & _ & He & _).
  exists s, h', (zap_Strings AbsentFieldsKey (absent_keys xs keys)).
  split; [done|]. split; [done|]. split; [done|].
  split; [done|]. split; [done|]. split; [|split].
  - intros f (key & Hkey & Hf)%list_elem_of_omap.
    assert (Key f = key) as ->; [|done].
    unfold first_with_key in Hf. apply head_Some_elem_of in Hf.
    by apply list_elem_of_filter in Hf as [-> _].
  - intros key. unfold absent_keys. rewrite list_elem_of_filter. tauto.
  - intros ->. split; [exact He|done].
Qed.

Lemma GetFields_absent_marker_witness :
  shown store_trace (Set_ Background (SArr 0 0 1 1)) = Some [f_trace]
  /\ exists s h',
       GetFields go_growcap (Set_ Background (SArr 0 0 1 1))
                 ["trace_id"; "missing_id"] store_trace = Some (s, h')
       /\ elems h' s
          = Some [f_trace;
                  mkField "_absentFields" ArrayMarshalerType 0 ""
                          (IStringArray ["missing_id"])].
Proof.
  split; [reflexivity|].
  destruct (GetFields_absent_marker go_growcap store_trace
              (Set_ Background (SArr 0 0 1 1))
              ["trace_id"; "missing_id"] [f_trace])
    as (s & h' & marker & Hrun & Hout & -> & _); [reflexivity|].
  exists s, h'. split; [exact Hrun|exact Hout].
Defined.

(** C9. On a context with a bound sequence, the sequence that
    [GetAll (Prune ctx)] shows is the last occurrence of each key, latest
    first: the reverse of the order in which these occurrences stand in the
    original sequence. *)
Theorem Prune_latest_first growcap h ctx loggerFields xs :
  bound ctx = Some loggerFields ->
  elems h loggerFields = Some xs ->
  exists ctx' h',
    Prune growcap ctx h = Some (ctx', h')
    /\ shown h' ctx' = Some (reverse (last_occurrences xs)).
Proof.
  intros Hb Hxs.
  destruct (Prune_bound growcap h ctx loggerFields xs Hb Hxs)
    as (pruned & h' & -> & _ & He & _).
  do 2 eexists. split; [done|].
  by rewrite (shown_bound _ _ pruned) by apply bound_Set.
Qed.

Lemma Prune_latest_first_witness :
  elems store_aba (SArr 0 0 3 3) = Some [f_a1; f_b1; f_a2]
  /\ exists ctx' h',
       Prune go_growcap (Set_ Background (SArr 0 0 3 3)) store_aba
         = Some (ctx', h')
       /\ shown h' ctx' = Some [f_a2; f_b1].
Proof.
  split; [reflexivity|].
  apply (Prune_latest_first go_growcap store_aba
           (Set_ Background (SArr 0 0 3 3))
           (SArr 0 0 3 3) [f_a1; f_b1; f_a2]); reflexivity.
Defined.

(** C2. On a context whose bound sequence may repeat keys, the sequence
    that [GetAll (Prune ctx)] shows has exactly one field for each key of
    the bound sequence, and that field is the last one bound under the key.
    In particular, after [Set] with one field and [Append] with one field of
    the same key, [Prune] leaves the appended field alone. *)
Theorem Prune_keeps_last growcap h ctx :
  (forall loggerFields xs,
     bound ctx = Some loggerFields ->
     elems h loggerFields = Some xs ->
     exists ctx' h' out,
       Prune growcap ctx h = Some (ctx', h')
       /\ shown h' ctx' = Some out
       /\ NoDup (Key <$> out)
       /\ (forall k, k ∈ Key <$> out <-> k ∈ Key <$> xs)
       /\ (forall f, f ∈ out -> last_occurrence f xs))
  /\ (forall F1 F2 f1 f2,
        valid h F1 -> elems h F1 = Some [f1] -> elems h F2 = Some [f2] ->
        Key f1 = Key f2 ->
        exists c1 h1 c2 h2,
          Append growcap (Set_ ctx F1) F2 h = Some (c1, h1)
          /\ Prune growcap c1 h1 = Some (c2, h2)
          /\ shown h2 c2 = Some [f2]).
Proof.
  split.
  - intros loggerFields xs Hb Hxs.
    destruct (Prune_bound growcap h ctx loggerFields xs Hb Hxs)
      as (pruned & h' & -> & _ & He & _).
    exists (Set_ ctx pruned), h', (reverse (last_occurrences xs)).
    split; [done|].
    split; [by rewrite (shown_bound _ _ pruned) by apply bound_Set|].
    split; [|split].
    + rewrite fmap_reverse, reverse_Permutation.
      apply last_occurrences_NoDup.
    + intros k. rewrite fmap_reverse, elem_of_reverse.
      apply last_occurrences_keys.
    + intros f Hf. apply last_occurrences_last.
      by apply elem_of_reverse.
  - intros F1 F2 f1 f2 Hv H1 H2 Hk.
    destruct (Append_bound growcap h (Set_ ctx F1) F1 F2 [f1] [f2]
                (bound_Set ctx F1) Hv H1 H2)
      as (s1 & h1 & -> & Hv1 & He1 & _ & _).
    destruct (Prune_bound growcap h1 _ s1 _
                (bound_WithValue (Set_ ctx F1) s1) He1)
      as (pruned & h2 & HP & _ & He2 & _).
    do 4 eexists. split; [done|]. split; [exact HP|].
    rewrite (shown_bound _ _ pruned) by apply bound_Set.
    rewrite He2. simpl.
    rewrite decide_True by (rewrite Hk; apply list_elem_of_here). done.
Qed.

Lemma Prune_keeps_last_witness :
  exists c1 h1 c2 h2,
    Append go_growcap (Set_ Background (SArr 0 0 1 1)) (SArr 1 0 1 1)
           store_aa = Some (c1, h1)
    /\ Prune go_growcap c1 h1 = Some (c2, h2)
    /\ shown h2 c2 = Some [zap_Int "a" 2].
Proof.
  destruct (Prune_keeps_last go_growcap store_aa Background) as [_ Hinst].
  apply (Hinst (SArr 0 0 1 1) (SArr 1 0 1 1) f_a1 f_a2).
  - simpl; lia.
  - reflexivity.
  - reflexivity.
  - reflexivity.
Defined.

(** On a context and a valid slice no operation panics; what it returns is
    well formed again and every valid slice stays valid, so that calls can
    be chained. *)
Lemma operations_total growcap h ctx fields keys key :
  ctx_ok h ctx ->
  valid h fields ->
  ctx_ok h (Set_ ctx fields)
  /\ (exists c h', Append growcap ctx fields h = Some (c, h')
                   /\ ctx_ok h' c /\ forall t, valid h t -> valid h' t)
  /\ valid h (GetAll ctx)
  /\ (exists s h', GetFields growcap ctx keys h = Some (s, h')
                   /\ valid h' s /\ forall t, valid h t -> valid h' t)
  /\ (exists f ok, GetField ctx key h = Some ((f, ok), h))
  /\ (exists c h', Prune growcap ctx h = Some (c, h')
                   /\ ctx_ok h' c /\ forall t, valid h t -> valid h' t).
Proof.
  intros Hctx Hfields.
  destruct (ctx_ok_shown h ctx Hctx) as [xs Hxs].
  destruct (valid_elems h fields Hfields) as (ys & Hys & _).
  split; [by apply ctx_ok_WithValue|].
  split; [|split; [|split; [|split]]].
  - unfold ctx_ok in Hctx.
    destruct (bound ctx) as [loggerFields|] eqn:Hb.
    + rewrite (shown_bound _ _ _ Hb) in Hxs.
      destruct (Append_bound growcap h ctx loggerFields fields xs ys
                  Hb Hctx Hxs Hys)
        as (s' & h' & -> & Hv' & _ & _ & Hval').
      do 2 eexists. split; [done|]. split; [|done].
      by apply ctx_ok_WithValue.
    + rewrite (Append_unbound growcap h ctx fields Hb).
      do 2 eexists. split; [done|]. split; [|done].
      by apply ctx_ok_WithValue.
  - unfold ctx_ok in Hctx. unfold GetAll. by destruct (bound ctx).
  - destruct (GetFields_spec growcap h ctx keys xs Hxs)
      as (s & h' & -> & Hv' & _ & Hval').
    by exists s, h'.
  - rewrite (GetField_shown _ _ _ _ Hxs).
    destruct (GetField_scan xs key) as [f ok]. by exists f, ok.
  - pose proof Hctx as Hctx'. unfold ctx_ok in Hctx.
    destruct (bound ctx) as [loggerFields|] eqn:Hb.
    + rewrite (shown_bound _ _ _ Hb) in Hxs.
      destruct (Prune_bound growcap h ctx loggerFields xs Hb Hxs)
        as (pruned & h' & -> & Hv' & _ & Hval' & _).
      do 2 eexists. split; [done|]. split; [|done].
      by apply ctx_ok_WithValue.
    + exists ctx, h. unfold Prune. rewrite Hb. done.
Qed.

(** On a context, the functions as they are called do what the functions
    on contexts do. *)
Lemma Set_call_Ctx c fields h :
  Set_call (Ctx c) fields h = Some (Ctx (Set_ c fields), h).
Proof. reflexivity. Qed.

Lemma GetAll_call_Ctx c h : GetAll_call (Ctx c) h = Some (GetAll c, h).
Proof.
  unfold GetAll_call, GetAll, bound. go_step.
  by destruct (asFields (Value c (PkgKey loggerKey))).
Qed.

Lemma GetField_call_Ctx c key h :
  GetField_call (Ctx c) key h = GetField c key h.
Proof.
  unfold GetField_call, GetField, bound. go_step.
  by destruct (asFields (Value c (PkgKey loggerKey))).
Qed.

Lemma GetFields_call_loop_Ctx growcap c :
  forall keys fields absentKeys h,
    GetFields_call_loop growcap (Ctx c) keys fields absentKeys h
    = GetFields_loop growcap c keys fields absentKeys h.
Proof.
  induction keys as [|key keys IH]; intros fields absentKeys h; [done|].
  cbn [GetFields_call_loop GetFields_loop]. unfold mbind, M_bind, bind.
  rewrite GetField_call_Ctx.
  destruct (GetField c key h) as [[[f ok] h1]|]; [|done].
  destruct ok; [|apply IH].
  destruct (append growcap fields [f] h1) as [[fields' h2]|]; [|done].
  apply IH.
Qed.

Lemma GetFields_call_Ctx growcap c keys h :
  GetFields_call growcap (Ctx c) keys h = GetFields growcap c keys h.
Proof.
  unfold GetFields_call, GetFields. go_step.
  by rewrite GetFields_call_loop_Ctx.
Qed.

Lemma Append_call_Ctx growcap c fields h :
  Append_call growcap (Ctx c) fields h
  = as_ctxval (Append growcap c fields h).
Proof.
  unfold Append_call, Append, bound. go_step.
  destruct (asFields (Value c (PkgKey loggerKey))) as [s|]; [|done].
  go_step. destruct (elems h fields) as [xs|]; [|done].
  by destruct (append growcap s xs h) as [[s' h']|].
Qed.

Lemma Prune_call_Ctx growcap c h :
  Prune_call growcap (Ctx c) h = as_ctxval (Prune growcap c h).
Proof.
  unfold Prune_call, Prune, bound. go_step.
  destruct (asFields (Value c (PkgKey loggerKey))) as [s|]; [|done].
  go_step.
  by destruct (Prune_loop growcap s (slen s) (SArr (length h) 0 0 (slen s))
                 ∅ (h ++ [replicate (slen s) zeroField])) as [[p h']|].
Qed.

(** With no key requested [GetFields] never touches the context, so that
    it returns its marker field on the nil interface too. *)
Lemma GetFields_call_no_keys growcap ctx h :
  GetFields_call growcap ctx [] h = GetFields growcap Background [] h.
Proof. reflexivity. Qed.

(** C8, on contexts.  Called with a context of the standard library, that
    is with an interface value that is not nil, and with a valid slice,
    every operation ([Set], [Append], [GetAll], [GetFields], [GetField],
    [Prune]) returns a result and does not panic, for any keys; the result
    is well formed again and every valid slice stays valid, so that calls
    can be chained. *)
Theorem operations_total_on_contexts growcap h c fields keys key :
  ctx_ok h c ->
  valid h fields ->
  (exists c', Set_call (Ctx c) fields h = Some (Ctx c', h) /\ ctx_ok h c')
  /\ (exists c' h',
        Append_call growcap (Ctx c) fields h = Some (Ctx c', h')
        /\ ctx_ok h' c' /\ forall t, valid h t -> valid h' t)
  /\ (exists s, GetAll_call (Ctx c) h = Some (s, h) /\ valid h s)
  /\ (exists s h',
        GetFields_call growcap (Ctx c) keys h = Some (s, h')
        /\ valid h' s /\ forall t, valid h t -> valid h' t)
  /\ (exists f ok, GetField_call (Ctx c) key h = Some ((f, ok), h))
  /\ (exists c' h',
        Prune_call growcap (Ctx c) h = Some (Ctx c', h')
        /\ ctx_ok h' c' /\ forall t, valid h t -> valid h' t).
Proof.
  intros Hctx Hfields.
  destruct (operations_total growcap h c fields keys key Hctx Hfields)
    as (HS & (ca & ha & HA & HAok) & HG & (sf & hf & HF & HFok)
        & (f & ok & HGF) & (cp & hp & HP & HPok)).
  split; [exists (Set_ c fields); by rewrite Set_call_Ctx|].
  split; [exists ca, ha; by rewrite Append_call_Ctx, HA|].
  split; [exists (GetAll c); by rewrite GetAll_call_Ctx|].
  split; [exists sf, hf; by rewrite GetFields_call_Ctx, HF|].
  split; [exists f, ok; by rewrite GetField_call_Ctx|].
  exists cp, hp. by rewrite Prune_call_Ctx, HP.
Qed.

Lemma operations_total_on_contexts_witness :
  ctx_ok store_abc (Set_ Background (SArr 0 0 2 2))
  /\ valid store_abc (SArr 1 0 1 1)
  /\ (exists c',
        Set_call (Ctx (Set_ Background (SArr 0 0 2 2))) (SArr 1 0 1 1)
                 store_abc = Some (Ctx c', store_abc))
  /\ (exists c' h',
        Append_call go_growcap (Ctx (Set_ Background (SArr 0 0 2 2)))
                    (SArr 1 0 1 1) store_abc = Some (Ctx c', h'))
  /\ (exists s,
        GetAll_call (Ctx (Set_ Background (SArr 0 0 2 2))) store_abc
          = Some (s, store_abc))
  /\ (exists s h',
        GetFields_call go_growcap (Ctx (Set_ Background (SArr 0 0 2 2)))
                       ["a"; "z"] store_abc = Some (s, h'))
  /\ (exists f ok,
        GetField_call (Ctx (Set_ Background (SArr 0 0 2 2))) "a" store_abc
          = Some ((f, ok), store_abc))
  /\ (exists c' h',
        Prune_call go_growcap (Ctx (Set_ Background (SArr 0 0 2 2)))
                   store_abc = Some (Ctx c', h')).
Proof.
  assert (ctx_ok store_abc (Set_ Background (SArr 0 0 2 2))) as Hctx
    by (unfold ctx_ok; simpl; lia).
  assert (valid store_abc (SArr 1 0 1 1)) as Hv by (simpl; lia).
  split; [exact Hctx|]. split; [exact Hv|].
  destruct (operations_total_on_contexts go_growcap store_abc
              (Set_ Background (SArr 0 0 2 2)) (SArr 1 0 1 1)
              ["a"; "z"] "a" Hctx Hv)
    as ((cs & HS & _) & (c & h1 & HA & _) & (sg & HG & _)
        & (s & h2 & HF & _) & (f & ok & HGF) & (c' & h3 & HP & _)).
  split; [by exists cs|]. split; [by exists c, h1|].
  split; [by exists sg|]. split; [by exists s, h2|].
  split; [by exists f, ok|]. by exists c', h3.
Defined.

(** C8 does not hold on the nil interface: [context.WithValue] panics
    on a nil parent and [ctx.Value] is a method call on nil, so that every
    operation that reaches one of them panics. *)
Lemma operations_panic_on_nil :
  Set_call NilCtx SNil [] = None
  /\ Append_call go_growcap NilCtx SNil [] = None
  /\ GetAll_call NilCtx [] = None
  /\ GetFields_call go_growcap NilCtx ["trace_id"] [] = None
  /\ GetField_call NilCtx "trace_id" [] = None
  /\ Prune_call go_growcap NilCtx [] = None.
Proof. repeat split; reflexivity. Qed.

(** C1, at a failing input.  [Prune] of the context that binds
    [[a=1, a=2]] leaves a context whose slice has length 1 and capacity 2.
    Two [Append]s onto that one parent then write the same cell of the
    parent's backing array: the context returned by the first shows
    [[a=2, b=1]] before the second call and [[a=2, c=2]] after it. *)
Theorem Append_sibling_overwrites :
  exists ctx hp c1 h1 c2 h2,
    Prune go_growcap (Set_ Background (SArr 0 0 2 2)) store_abc
      = Some (ctx, hp)
    /\ GetAll ctx = SArr 3 0 1 2
    /\ Append go_growcap ctx (SArr 1 0 1 1) hp = Some (c1, h1)
    /\ shown h1 c1 = Some [f_a2; f_b1]
    /\ Append go_growcap ctx (SArr 2 0 1 1) h1 = Some (c2, h2)
    /\ shown h2 c2 = Some [f_a2; f_c2]
    /\ shown h2 c1 = Some [f_a2; f_c2].
Proof.
  do 6 eexists. repeat split; reflexivity.
Qed.

(** * Further properties of the package *)

(** ** What append leaves alone *)

Lemma take_prefix_written (arr xs tail : list Field) o l o' l' :
  o' + l' <= o + l -> o + l <= length arr ->
  take l' (drop o' (take (o + l) arr ++ xs ++ tail)) = take l' (drop o' arr).
Proof.
  intros Hpre Hlen.
  rewrite drop_app_le by (rewrite length_take; lia).
  rewrite take_app_le by (rewrite length_drop, length_take; lia).
  rewrite <- (take_drop (o + l) arr) at 2.
  rewrite drop_app_le by (rewrite length_take; lia).
  rewrite take_app_le by (rewrite length_drop, length_take; lia). done.
Qed.

(** [append] writes only behind the end of the slice it extends: a slice on
    another array, or one that ends in front of that end, holds what it
    held. *)
Lemma append_before_end growcap s xs h s' h' t ys :
  valid h s ->
  append growcap s xs h = Some (s', h') ->
  before_end t s ->
  elems h t = Some ys ->
  elems h' t = Some ys.
Proof.
  intros Hv Happ Ht Hys.
  destruct (valid_elems h s Hv) as (old & Hold & _).
  destruct (decide (slen s + length xs <= scap s)) as [Hroom|Hroom].
  - destruct s as [|a o l c].
    + revert Happ. unfold append. simpl.
      rewrite decide_True by (simpl in Hroom; lia). by intros [= <- <-].
    + simpl in Hroom.
      destruct (append_inplace growcap a o l c xs h old Hv Hroom Hold)
        as (h1 & Happ1 & _ & _ & _ & _ & Hfr).
      rewrite Happ1 in Happ. injection Happ as <- <-.
      destruct t as [|a' o' l' c']; [done|].
      destruct (decide (a' = a)) as [->|Hne];
        [|by rewrite Hfr by (simpl; congruence)].
      simpl in Ht. destruct Ht as [?|Hpre]; [done|].
      revert Happ1. unfold append. simpl. rewrite decide_True by lia.
      simpl in Hv, Hys. destruct (h !! a) as [arr|] eqn:Ha; [|done].
      rewrite decide_True by lia. intros [= <-].
      rewrite list_lookup_insert_eq by (by eapply lookup_lt_Some).
      rewrite (length_written arr xs o l c) by lia.
      destruct (decide (o' + l' <= length arr)); [|done].
      injection Hys as <-. f_equal.
      apply take_prefix_written; lia.
  - destruct (append_grow growcap s xs h old) as (c' & Happ1 & _);
      [lia|done|].
    rewrite Happ1 in Happ. injection Happ as <- <-.
    by apply elems_app_Some.
Qed.

Lemma before_end_refl s : before_end s s.
Proof. destruct s; simpl; [done|]. right. lia. Qed.

(** Appending nothing returns the slice and the store as they are. *)
Lemma append_nothing growcap s h :
  valid h s -> append growcap s [] h = Some (s, h).
Proof.
  intros Hv. unfold append. destruct s as [|a o l c]; [done|].
  simpl in *. destruct (h !! a) as [arr|] eqn:Ha; [|done].
  rewrite !decide_True by lia.
  rewrite Nat.add_0_r, take_drop. by rewrite list_insert_id.
Qed.

(** [Append] on a well-formed context, with or without a bound
    sequence. *)
Lemma Append_shown growcap h ctx fields old xs :
  ctx_ok h ctx ->
  shown h ctx = Some old ->
  elems h fields = Some xs ->
  exists s' h',
    Append growcap ctx fields h
      = Some (WithValue ctx (PkgKey loggerKey) (FieldsVal s'), h')
    /\ elems h' s' = Some (old ++ xs)
    /\ slen s' = slen (GetAll ctx) + slen fields.
Proof.
  intros Hctx Hold Hxs. unfold ctx_ok in Hctx.
  destruct (bound ctx) as [s|] eqn:Hb.
  - rewrite (shown_bound _ _ _ Hb) in Hold.
    destruct (Append_bound growcap h ctx s fields old xs Hb Hctx Hold Hxs)
      as (s' & h' & -> & _ & He' & Hl' & _).
    exists s', h'. by rewrite (GetAll_bound _ _ Hb).
  - rewrite (Append_unbound growcap h ctx fields Hb).
    rewrite (shown_unbound _ _ Hb) in Hold. injection Hold as <-.
    exists fields, h. split; [done|]. split; [done|].
    unfold GetAll. by rewrite Hb.
Qed.

(** X1. On every well-formed context, with or without a bound sequence,
    the context that [Append] returns shows the sequence of the parent
    followed by the new fields, and its length is the sum of the two. *)
Theorem Append_shows_concat growcap h ctx fields old xs :
  ctx_ok h ctx ->
  shown h ctx = Some old ->
  elems h fields = Some xs ->
  exists c h',
    Append growcap ctx fields h = Some (c, h')
    /\ shown h' c = Some (old ++ xs)
    /\ slen (GetAll c) = slen (GetAll ctx) + slen fields.
Proof.
  intros Hctx Hold Hxs.
  destruct (Append_shown growcap h ctx fields old xs Hctx Hold Hxs)
    as (s' & h' & -> & He' & Hl').
  do 2 eexists. split; [done|].
  rewrite (shown_bound _ _ s') by apply bound_WithValue.
  by rewrite (GetAll_bound _ s') by apply bound_WithValue.
Qed.

Lemma Append_shows_concat_witness :
  ctx_ok store_spare (Set_ Background (SArr 0 0 1 2))
  /\ exists c h',
       Append go_growcap (Set_ Background (SArr 0 0 1 2)) (SArr 1 0 1 1)
              store_spare = Some (c, h')
       /\ shown h' c = Some [f_a1; f_b1]
       /\ slen (GetAll c) = 2.
Proof.
  assert (ctx_ok store_spare (Set_ Background (SArr 0 0 1 2))) as Hctx
    by (unfold ctx_ok; simpl; lia).
  split; [exact Hctx|].
  apply (Append_shows_concat go_growcap store_spare
           (Set_ Background (SArr 0 0 1 2)) (SArr 1 0 1 1) [f_a1] [f_b1]
           Hctx); reflexivity.
Defined.

(** X2. [Append] of an empty sequence of fields (nil or of length 0)
    leaves the store as it is, and the context it returns shows what the
    parent shows; on a parent with a bound sequence it binds the very same
    slice. *)
Theorem Append_nothing growcap h ctx fields :
  ctx_ok h ctx ->
  elems h fields = Some [] ->
  exists c,
    Append growcap ctx fields h = Some (c, h)
    /\ shown h c = shown h ctx
    /\ (forall s, bound ctx = Some s -> GetAll c = s).
Proof.
  intros Hctx Hxs. unfold ctx_ok in Hctx. unfold Append.
  destruct (bound ctx) as [s|] eqn:Hb.
  - go_step. rewrite Hxs, (append_nothing growcap s h Hctx).
    eexists. split; [done|].
    rewrite (shown_bound _ _ s) by apply bound_WithValue.
    rewrite (shown_bound _ _ _ Hb). split; [done|].
    intros s0 [= <-]. by apply GetAll_bound, bound_WithValue.
  - eexists. split; [done|].
    rewrite (shown_bound _ _ fields) by apply bound_WithValue.
    rewrite (shown_unbound _ _ Hb). done.
Qed.

Lemma Append_nothing_witness :
  exists c,
    Append go_growcap (Set_ Background (SArr 0 0 1 2)) SNil store_spare
      = Some (c, store_spare)
    /\ shown store_spare c
       = shown store_spare (Set_ Background (SArr 0 0 1 2))
    /\ (forall s, bound (Set_ Background (SArr 0 0 1 2)) = Some s ->
          GetAll c = s).
Proof.
  apply (Append_nothing go_growcap store_spare
           (Set_ Background (SArr 0 0 1 2)) SNil).
  - unfold ctx_ok; simpl; lia.
  - reflexivity.
Defined.

(** X3. [Append] never changes what its parent shows: it writes only
    behind the end of the parent's slice, so every slice on another array
    and every slice that ends in front of that end holds what it held. *)
Theorem Append_parent_unchanged growcap h ctx fields c h' :
  ctx_ok h ctx ->
  Append growcap ctx fields h = Some (c, h') ->
  shown h' ctx = shown h ctx
  /\ forall t ys, before_end t (GetAll ctx) ->
       elems h t = Some ys -> elems h' t = Some ys.
Proof.
  intros Hctx HA.
  assert (forall t ys, before_end t (GetAll ctx) ->
            elems h t = Some ys -> elems h' t = Some ys) as Hfr.
  { unfold ctx_ok in Hctx. revert HA. unfold Append, GetAll.
    destruct (bound ctx) as [s|] eqn:Hb.
    - go_step. destruct (elems h fields) as [xs|]; [|done].
      destruct (append growcap s xs h) as [[s' h1]|] eqn:Happ; [|done].
      intros [= <- <-] t ys Ht Hys.
      by apply (append_before_end growcap s xs h s' h1 t ys Hctx Happ).
    - by intros [= <- <-]. }
  split; [|done].
  destruct (ctx_ok_shown h ctx Hctx) as [xs Hxs]. rewrite Hxs.
  apply Hfr; [apply before_end_refl|done].
Qed.

Lemma Append_parent_unchanged_witness :
  shown [[f_a1; f_b1]; [f_b1]; [f_c2]] (Set_ Background (SArr 0 0 1 2))
  = shown store_spare (Set_ Background (SArr 0 0 1 2))
  /\ forall t ys, before_end t (GetAll (Set_ Background (SArr 0 0 1 2))) ->
       elems store_spare t = Some ys ->
       elems [[f_a1; f_b1]; [f_b1]; [f_c2]] t = Some ys.
Proof.
  apply (Append_parent_unchanged go_growcap store_spare
           (Set_ Background (SArr 0 0 1 2)) (SArr 1 0 1 1)
           (WithValue (Set_ Background (SArr 0 0 1 2)) (PkgKey loggerKey)
                      (FieldsVal (SArr 0 0 2 2)))).
  - unfold ctx_ok; simpl; lia.
  - reflexivity.
Defined.

Lemma Append_sibling_frame_witness :
  exists c1 h1 c2 h2,
    Append go_growcap (Set_ Background (SArr 0 0 2 2)) (SArr 1 0 1 1)
           store_abc = Some (c1, h1)
    /\ Append go_growcap (Set_ Background (SArr 0 0 2 2)) (SArr 2 0 1 1) h1
       = Some (c2, h2)
    /\ shown h2 c1 = shown h1 c1.
Proof.
  do 4 eexists. split; [reflexivity|]. split; [reflexivity|].
  eapply (Append_sibling_frame go_growcap store_abc
            (Set_ Background (SArr 0 0 2 2)) (SArr 1 0 1 1) (SArr 2 0 1 1)).
  - unfold ctx_ok; simpl; lia.
  - simpl; lia.
  - intros s Hs. vm_compute in Hs. injection Hs as <-. reflexivity.
  - reflexivity.
  - reflexivity.
Defined.

(** ** Lookups by key in a sequence *)

Lemma filter_key_nil key xs :
  filter (fun f => Key f = key) xs = [] <-> key ∉ Key <$> xs.
Proof.
  rewrite <- first_with_key_None. unfold first_with_key.
  by rewrite head_None.
Qed.

Lemma last_with_key_None key xs :
  last_with_key key xs = None <-> key ∉ Key <$> xs.
Proof. unfold last_with_key. by rewrite last_None, filter_key_nil. Qed.

Lemma last_with_key_app key xs ys :
  last_with_key key (xs ++ ys)
  = match last_with_key key ys with
    | Some f => Some f
    | None => last_with_key key xs
    end.
Proof. unfold last_with_key. by rewrite filter_app, last_app. Qed.

Lemma last_with_key_Some key xs f :
  last_with_key key xs = Some f -> Key f = key /\ last_occurrence f xs.
Proof.
  unfold last_with_key.
  induction xs as [|x xs IH] using rev_ind; [done|].
  rewrite filter_app, filter_cons, filter_nil.
  destruct (decide (Key x = key)) as [Hx|Hx].
  - rewrite last_snoc. intros [= <-]. split; [done|].
    exists xs, []. split; [done|]. apply not_elem_of_nil.
  - rewrite app_nil_r. intros (Hk & l1 & l2 & -> & Hl)%IH.
    split; [done|]. exists l1, (l2 ++ [x]).
    split; [by rewrite <- app_assoc|].
    rewrite fmap_app, not_elem_of_app. split; [done|].
    simpl. rewrite not_elem_of_cons. split; [congruence|].
    apply not_elem_of_nil.
Qed.

Lemma last_occurrences_filter_key key xs :
  filter (fun f => Key f = key) (last_occurrences xs)
  = option_list (last_with_key key xs).
Proof.
  unfold last_with_key.
  induction xs as [|g xs IH]; [done|].
  cbn [last_occurrences]. rewrite (filter_cons _ g xs).
  destruct (decide (Key g ∈ Key <$> xs)) as [Hin|Hnin].
  - rewrite IH. destruct (decide (Key g = key)) as [<-|]; [|done].
    destruct (filter (fun f => Key f = Key g) xs) as [|y l] eqn:E.
    + by apply filter_key_nil in E.
    + by rewrite last_cons_cons.
  - rewrite filter_cons. destruct (decide (Key g = key)) as [<-|]; [|done].
    apply filter_key_nil in Hnin. rewrite Hnin in IH |- *.
    by rewrite IH.
Qed.

(** In a pruned sequence the first field with a key is the last one that
    the original sequence has with it. *)
Lemma first_with_key_pruned key xs :
  first_with_key key (reverse (last_occurrences xs)) = last_with_key key xs.
Proof.
  unfold first_with_key.
  rewrite filter_reverse, head_reverse, last_occurrences_filter_key.
  by destruct (last_with_key key xs).
Qed.

Lemma GetField_scan_reported xs key :
  GetField_scan xs key = reported (first_with_key key xs).
Proof. apply GetField_scan_first_with_key. Qed.

Lemma first_with_key_app key xs ys :
  first_with_key key (xs ++ ys)
  = match first_with_key key xs with
    | Some f => Some f
    | None => first_with_key key ys
    end.
Proof.
  unfold first_with_key. rewrite filter_app.
  by destruct (filter (fun f => Key f = key) xs).
Qed.

Lemma last_occurrences_distinct xs :
  NoDup (Key <$> xs) -> last_occurrences xs = xs.
Proof.
  induction xs as [|g xs IH]; [done|].
  cbn [fmap list_fmap]. rewrite NoDup_cons. intros [Hnin Hnd].
  cbn [last_occurrences]. rewrite decide_False by done. by rewrite IH.
Qed.

Lemma last_occurrences_length xs :
  length (last_occurrences xs) <= length xs.
Proof.
  induction xs as [|g xs IH]; [done|]. cbn [last_occurrences].
  destruct (decide (Key g ∈ Key <$> xs)); simpl; lia.
Qed.

Lemma last_occurrences_full xs :
  length (last_occurrences xs) = length xs -> NoDup (Key <$> xs).
Proof.
  induction xs as [|g xs IH]; [constructor|]. cbn [last_occurrences].
  pose proof (last_occurrences_length xs).
  destruct (decide (Key g ∈ Key <$> xs)); simpl; [lia|].
  intros Hlen. cbn [fmap list_fmap]. constructor; [done|]. apply IH. lia.
Qed.

(** ** Prune *)

(** The slice that [Prune] binds: on a new backing array as long as the
    original sequence, filled from the front. *)
Lemma Prune_bound_slice growcap h ctx loggerFields xs :
  bound ctx = Some loggerFields ->
  elems h loggerFields = Some xs ->
  exists h',
    Prune growcap ctx h
      = Some (Set_ ctx (SArr (length h) 0 (length (last_occurrences xs))
                             (length xs)), h')
    /\ length h' = S (length h).
Proof.
  intros Hb Hxs. unfold Prune. rewrite Hb. go_step.
  pose proof (elems_length _ _ _ Hxs) as Hlen. rewrite <- Hlen.
  set (c := length xs) in *.
  set (h1 := h ++ [replicate c zeroField]).
  destruct (Prune_loop_spec growcap loggerFields xs (length h) c c 0 ∅ [] h1)
    as (l' & h' & -> & Hv' & He' & Hlen' & _).
  - by apply elems_app_Some.
  - intros Ha. pose proof (elems_bound _ _ _ _ Hxs Ha). lia.
  - lia.
  - apply valid_fresh; [lia|]. by rewrite length_replicate.
  - by apply (elems_fresh h [] (replicate c zeroField) 0 c).
  - lia.
  - apply elems_length in He'. simpl in He'.
    rewrite take_ge, prune_scan_all, length_reverse in He' by lia.
    rewrite He'. exists h'. split; [done|].
    rewrite Hlen'. unfold h1. rewrite length_app. simpl. lia.
Qed.

(** X5. [Prune] writes only into a backing array of its own: every slice
    holds afterwards what it held before, so the context given to [Prune]
    and every context issued earlier show what they showed. *)
Theorem Prune_leaves_store growcap h ctx :
  ctx_ok h ctx ->
  exists c h',
    Prune growcap ctx h = Some (c, h')
    /\ shown h' ctx = shown h ctx
    /\ forall t ys, elems h t = Some ys -> elems h' t = Some ys.
Proof.
  intros Hctx. destruct (ctx_ok_shown h ctx Hctx) as [xs Hxs].
  destruct (bound ctx) as [s|] eqn:Hb.
  - pose proof Hxs as Hs. rewrite (shown_bound _ _ _ Hb) in Hs.
    destruct (Prune_bound growcap h ctx s xs Hb Hs)
      as (pruned & h' & -> & _ & _ & _ & Hfr).
    do 2 eexists. split; [done|]. split; [|done].
    rewrite Hxs. unfold shown in *. by apply Hfr.
  - exists ctx, h. unfold Prune. by rewrite Hb.
Qed.

Lemma Prune_leaves_store_witness :
  exists c h',
    Prune go_growcap (Set_ Background (SArr 0 0 3 3)) store_aba
      = Some (c, h')
    /\ shown h' (Set_ Background (SArr 0 0 3 3))
       = shown store_aba (Set_ Background (SArr 0 0 3 3))
    /\ forall t ys, elems store_aba t = Some ys -> elems h' t = Some ys.
Proof.
  apply (Prune_leaves_store go_growcap store_aba
           (Set_ Background (SArr 0 0 3 3))).
  unfold ctx_ok; simpl; lia.
Defined.

(** X6. [Prune] is not idempotent on the order: a second [Prune] turns the
    sequence round again, so [Prune (Prune ctx)] shows the last occurrence
    of each key in the original, oldest-first order. *)
Theorem Prune_twice growcap h ctx loggerFields xs :
  bound ctx = Some loggerFields ->
  elems h loggerFields = Some xs ->
  exists c1 h1 c2 h2,
    Prune growcap ctx h = Some (c1, h1)
    /\ shown h1 c1 = Some (reverse (last_occurrences xs))
    /\ Prune growcap c1 h1 = Some (c2, h2)
    /\ shown h2 c2 = Some (last_occurrences xs).
Proof.
  intros Hb Hxs.
  destruct (Prune_bound growcap h ctx loggerFields xs Hb Hxs)
    as (p1 & h1 & HP1 & _ & He1 & _).
  destruct (Prune_bound growcap h1 (Set_ ctx p1) p1 _ (bound_Set ctx p1) He1)
    as (p2 & h2 & HP2 & _ & He2 & _).
  exists (Set_ ctx p1), h1, (Set_ (Set_ ctx p1) p2), h2.
  split; [done|].
  split; [by rewrite (shown_bound _ _ p1) by apply bound_Set|].
  split; [done|].
  rewrite (shown_bound _ _ p2) by apply bound_Set. rewrite He2.
  rewrite last_occurrences_distinct, reverse_involutive; [done|].
  rewrite fmap_reverse, reverse_Permutation. apply last_occurrences_NoDup.
Qed.

Lemma Prune_twice_witness :
  exists c1 h1 c2 h2,
    Prune go_growcap (Set_ Background (SArr 0 0 3 3)) store_aba
      = Some (c1, h1)
    /\ shown h1 c1 = Some [f_a2; f_b1]
    /\ Prune go_growcap c1 h1 = Some (c2, h2)
    /\ shown h2 c2 = Some [f_b1; f_a2].
Proof.
  apply (Prune_twice go_growcap store_aba (Set_ Background (SArr 0 0 3 3))
           (SArr 0 0 3 3) [f_a1; f_b1; f_a2]); reflexivity.
Defined.

(** X7. [Prune] never lengthens the sequence, and keeps its length exactly
    when no key is repeated; the sequence is then shown in reverse order,
    the latest field first. *)
Theorem Prune_distinct_reverses growcap h ctx loggerFields xs :
  bound ctx = Some loggerFields ->
  elems h loggerFields = Some xs ->
  exists c h' out,
    Prune growcap ctx h = Some (c, h')
    /\ shown h' c = Some out
    /\ length out <= length xs
    /\ (length out = length xs <-> NoDup (Key <$> xs))
    /\ (NoDup (Key <$> xs) -> out = reverse xs).
Proof.
  intros Hb Hxs.
  destruct (Prune_bound growcap h ctx loggerFields xs Hb Hxs)
    as (pruned & h' & -> & _ & He & _).
  exists (Set_ ctx pruned), h', (reverse (last_occurrences xs)).
  split; [done|].
  split; [by rewrite (shown_bound _ _ pruned) by apply bound_Set|].
  rewrite length_reverse.
  split; [apply last_occurrences_length|]. split; [split|].
  - apply last_occurrences_full.
  - by intros ->%last_occurrences_distinct.
  - by intros ->%last_occurrences_distinct.
Qed.

Lemma Prune_distinct_reverses_witness :
  exists c h' out,
    Prune go_growcap (Set_ Background (SArr 0 0 2 2)) store_ab
      = Some (c, h')
    /\ shown h' c = Some out
    /\ length out <= 2
    /\ (length out = 2 <-> NoDup (Key <$> [f_a1; f_b1]))
    /\ (NoDup (Key <$> [f_a1; f_b1]) -> out = [f_b1; f_a1]).
Proof.
  apply (Prune_distinct_reverses go_growcap store_ab
           (Set_ Background (SArr 0 0 2 2)) (SArr 0 0 2 2) [f_a1; f_b1]);
    reflexivity.
Defined.

(** X8. The slice that [Prune] binds sits on a new backing array; its
    capacity is the length of the original sequence and its length is the
    number of fields kept, so it has as many spare cells as there were
    overwritten fields. *)
Theorem Prune_slice growcap h ctx loggerFields xs :
  bound ctx = Some loggerFields ->
  elems h loggerFields = Some xs ->
  exists c h',
    Prune growcap ctx h = Some (c, h')
    /\ GetAll c = SArr (length h) 0 (length (last_occurrences xs))
                       (length xs)
    /\ h !! length h = None
    /\ scap (GetAll c) - slen (GetAll c)
       = length xs - length (last_occurrences xs).
Proof.
  intros Hb Hxs.
  destruct (Prune_bound_slice growcap h ctx loggerFields xs Hb Hxs)
    as (h' & -> & _).
  do 2 eexists. split; [done|].
  rewrite (GetAll_bound _ _ (bound_Set ctx _)).
  split; [done|]. split; [|done]. by apply lookup_ge_None_2.
Qed.

Lemma Prune_slice_witness :
  exists c h',
    Prune go_growcap (Set_ Background (SArr 0 0 3 3)) store_aba
      = Some (c, h')
    /\ GetAll c = SArr 1 0 2 3
    /\ store_aba !! 1 = None
    /\ scap (GetAll c) - slen (GetAll c) = 1.
Proof.
  apply (Prune_slice go_growcap store_aba (Set_ Background (SArr 0 0 3 3))
           (SArr 0 0 3 3) [f_a1; f_b1; f_a2]); reflexivity.
Defined.

(** ** Lookups after Append and Prune *)

(** X9. After [Prune], [GetField] finds for a key the field that was bound
    last under it in the original sequence, and finds nothing exactly when
    the original sequence has no field with the key. *)
Theorem GetField_after_Prune growcap h ctx loggerFields xs key :
  bound ctx = Some loggerFields ->
  elems h loggerFields = Some xs ->
  exists c h',
    Prune growcap ctx h = Some (c, h')
    /\ GetField c key h' = Some (reported (last_with_key key xs), h')
    /\ (forall f, last_with_key key xs = Some f ->
          Key f = key /\ last_occurrence f xs)
    /\ (last_with_key key xs = None <-> key ∉ Key <$> xs).
Proof.
  intros Hb Hxs.
  destruct (Prune_bound growcap h ctx loggerFields xs Hb Hxs)
    as (pruned & h' & -> & _ & He & _).
  do 2 eexists. split; [done|]. split; [|split].
  - rewrite (GetField_shown h' _ key (reverse (last_occurrences xs))).
    + by rewrite GetField_scan_reported, first_with_key_pruned.
    + by rewrite (shown_bound _ _ pruned) by apply bound_Set.
  - apply last_with_key_Some.
  - apply last_with_key_None.
Qed.

Lemma GetField_after_Prune_witness :
  exists c h',
    Prune go_growcap (Set_ Background (SArr 0 0 3 3)) store_aba
      = Some (c, h')
    /\ GetField c "a" h' = Some ((f_a2, true), h').
Proof.
  destruct (GetField_after_Prune go_growcap store_aba
              (Set_ Background (SArr 0 0 3 3)) (SArr 0 0 3 3)
              [f_a1; f_b1; f_a2] "a")
    as (c & h' & HP & HG & _); [reflexivity|reflexivity|].
  exists c, h'. split; [exact HP|exact HG].
Defined.

(** X10. [Append] does not override a lookup: on the context it returns,
    [GetField] finds for a key what it finds on the parent whenever the
    parent has a field with the key, and looks at the new fields only
    otherwise. *)
Theorem GetField_after_Append growcap h ctx fields old xs key :
  ctx_ok h ctx ->
  shown h ctx = Some old ->
  elems h fields = Some xs ->
  exists c h',
    Append growcap ctx fields h = Some (c, h')
    /\ (key ∈ Key <$> old ->
        exists r, GetField ctx key h = Some (r, h)
                  /\ GetField c key h' = Some (r, h'))
    /\ (key ∉ Key <$> old ->
        GetField c key h' = Some (reported (first_with_key key xs), h')).
Proof.
  intros Hctx Hold Hxs.
  destruct (Append_shown growcap h ctx fields old xs Hctx Hold Hxs)
    as (s' & h' & -> & He' & _).
  do 2 eexists. split; [done|].
  rewrite (GetField_shown h' _ key (old ++ xs))
    by (by rewrite (shown_bound _ _ s') by apply bound_WithValue).
  rewrite (GetField_shown h ctx key old Hold).
  rewrite !GetField_scan_reported, first_with_key_app.
  split.
  - intros Hin. eexists. split; [done|].
    destruct (first_with_key key old) eqn:E; [done|].
    by apply first_with_key_None in E.
  - intros Hnin. apply first_with_key_None in Hnin. by rewrite Hnin.
Qed.

Lemma GetField_after_Append_witness :
  exists c h',
    Append go_growcap (Set_ Background (SArr 0 0 1 1)) (SArr 1 0 1 1)
           store_aa = Some (c, h')
    /\ GetField c "a" h' = Some ((f_a1, true), h').
Proof.
  destruct (GetField_after_Append go_growcap store_aa
              (Set_ Background (SArr 0 0 1 1)) (SArr 1 0 1 1)
              [f_a1] [f_a2] "a")
    as (c & h' & HA & Hold & _);
    [unfold ctx_ok; simpl; lia|reflexivity|reflexivity|].
  exists c, h'. split; [exact HA|].
  destruct Hold as (r & Hr & Hc).
  - apply list_elem_of_here.
  - vm_compute in Hr. injection Hr as <-. exact Hc.
Defined.

(** X11. After [Append] and then [Prune] the new fields take precedence:
    [GetField] finds for a key the last of the appended fields with it, and
    falls back on the last field of the parent only when no appended field
    has the key. *)
Theorem GetField_after_Append_Prune growcap h ctx fields old xs key :
  ctx_ok h ctx ->
  shown h ctx = Some old ->
  elems h fields = Some xs ->
  exists c1 h1 c2 h2,
    Append growcap ctx fields h = Some (c1, h1)
    /\ Prune growcap c1 h1 = Some (c2, h2)
    /\ GetField c2 key h2
       = Some (reported (match last_with_key key xs with
                         | Some f => Some f
                         | None => last_with_key key old
                         end), h2).
Proof.
  intros Hctx Hold Hxs.
  destruct (Append_shown growcap h ctx fields old xs Hctx Hold Hxs)
    as (s1 & h1 & HA & He1 & _).
  destruct (Prune_bound growcap h1 _ s1 _ (bound_WithValue ctx s1) He1)
    as (pruned & h2 & HP & _ & He2 & _).
  do 4 eexists. split; [exact HA|]. split; [exact HP|].
  rewrite (GetField_shown h2 _ key (reverse (last_occurrences (old ++ xs))))
    by (by rewrite (shown_bound _ _ pruned) by apply bound_Set).
  by rewrite GetField_scan_reported, first_with_key_pruned,
    last_with_key_app.
Qed.

Lemma GetField_after_Append_Prune_witness :
  exists c1 h1 c2 h2,
    Append go_growcap (Set_ Background (SArr 0 0 1 1)) (SArr 1 0 1 1)
           store_aa = Some (c1, h1)
    /\ Prune go_growcap c1 h1 = Some (c2, h2)
    /\ GetField c2 "a" h2 = Some ((f_a2, true), h2).
Proof.
  apply (GetField_after_Append_Prune go_growcap store_aa
           (Set_ Background (SArr 0 0 1 1)) (SArr 1 0 1 1)
           [f_a1] [f_a2] "a");
    [unfold ctx_ok; simpl; lia|reflexivity|reflexivity].
Defined.

(** ** GetFields *)

Lemma found_absent_length xs keys :
  length (found_fields xs keys) + length (absent_keys xs keys)
  = length keys.
Proof.
  unfold found_fields, absent_keys.
  induction keys as [|key keys IH]; [done|].
  cbn [omap list_omap]. rewrite filter_cons.
  destruct (first_with_key key xs) as [f|] eqn:E.
  - rewrite decide_False; [simpl; lia|].
    rewrite <- first_with_key_None, E. done.
  - rewrite decide_True by (by apply first_with_key_None). simpl. lia.
Qed.

Lemma absent_keys_nil xs keys :
  absent_keys xs keys = [] <-> forall key, key ∈ keys -> key ∈ Key <$> xs.
Proof.
  unfold absent_keys. induction keys as [|key keys IH].
  - split; [|done]. by intros _ key ?%elem_of_nil.
  - rewrite filter_cons. destruct (decide (key ∉ Key <$> xs)) as [Hn|Hin].
    + split; [done|]. intros Hall. destruct Hn. apply Hall, list_elem_of_here.
    + rewrite IH. apply dec_stable in Hin. split.
      * intros Hall k [->|?]%elem_of_cons; auto.
      * intros Hall k Hk. by apply Hall, list_elem_of_further.
Qed.

(** The array a slice returned by [append] sits on: that of the slice
    extended, or a new one. *)
Lemma append_sarr growcap s xs h s' h' :
  append growcap s xs h = Some (s', h') ->
  (sarr s' = sarr s /\ length h' = length h)
  \/ (sarr s' = Some (length h) /\ length h' = S (length h)).
Proof.
  unfold append. case_decide.
  - destruct s as [|a o l c]; [intros [= <- <-]; by left|].
    destruct (h !! a) as [arr|]; [|done]. case_decide; [|done].
    intros [= <- <-]. left. by rewrite length_insert.
  - destruct (elems h s) as [old|]; [|done]. intros [= <- <-]. right.
    rewrite length_app. simpl. split; [done|lia].
Qed.

(** The loop of [GetFields] writes only the destination's array. *)
Lemma GetFields_loop_frame growcap ctx xs p c :
  forall keys l absentKeys acc h r h',
    shown h ctx = Some xs ->
    sarr (GetAll ctx) <> Some p ->
    valid h (SArr p 0 l c) ->
    elems h (SArr p 0 l c) = Some acc ->
    l + length keys <= c ->
    GetFields_loop growcap ctx keys (SArr p 0 l c) absentKeys h
      = Some (r, h') ->
    length h' = length h
    /\ forall t, sarr t <> Some p -> elems h' t = elems h t.
Proof.
  induction keys as [|key keys IH];
    intros l absentKeys acc h r h' Hxs Hp Hv Hacc Hroom.
  - simpl. go_step. by intros [= <- <-].
  - cbn [GetFields_loop]. go_step.
    rewrite (GetField_shown _ _ _ _ Hxs), GetField_scan_first_with_key.
    simpl in Hroom.
    destruct (first_with_key key xs) as [f|] eqn:Hf.
    + destruct (append_inplace growcap p 0 l c [f] h acc Hv)
        as (h1 & Happ & Hv1 & He1 & Hlen1 & Hval1 & Hfr1);
        [simpl; lia|done|].
      cbn [length] in Happ, Hv1, He1. rewrite Happ. intros Hloop.
      destruct (IH (l + 1) absentKeys (acc ++ [f]) h1 r h')
        as [Hlen' Hfr'];
        [by unfold shown; rewrite Hfr1|done|done|done|lia|done|].
      split; [lia|]. intros t Ht. by rewrite Hfr', Hfr1.
    + intros Hloop.
      apply (IH l (absentKeys ++ [key]) acc h r h');
        [done|done|done|done|lia|done].
Qed.

(** X12. [GetFields] accounts for every requested key exactly once: the
    number of fields found and the number of keys listed as absent add up
    to the number of keys requested; the absent list is empty exactly when
    the context has every requested key. *)
Theorem GetFields_accounts_for_keys growcap h ctx keys xs :
  shown h ctx = Some xs ->
  exists s h' found absent,
    GetFields growcap ctx keys h = Some (s, h')
    /\ elems h' s = Some (found ++ [zap_Strings AbsentFieldsKey absent])
    /\ length found + length absent = length keys
    /\ slen s = S (length found)
    /\ (absent = [] <-> forall key, key ∈ keys -> key ∈ Key <$> xs).
Proof.
  intros Hxs.
  destruct (GetFields_spec growcap h ctx keys xs Hxs)
    as (s & h' & -> & _ & He & _).
  exists s, h', (found_fields xs keys), (absent_keys xs keys).
  split; [done|]. split; [done|].
  split; [apply found_absent_length|]. split.
  - apply elems_length in He. rewrite <- He, length_app. simpl. lia.
  - apply absent_keys_nil.
Qed.

Lemma GetFields_accounts_for_keys_witness :
  exists s h' found absent,
    GetFields go_growcap (Set_ Background (SArr 0 0 1 1))
              ["trace_id"; "missing_id"] store_trace = Some (s, h')
    /\ elems h' s = Some (found ++ [zap_Strings AbsentFieldsKey absent])
    /\ length found + length absent = 2
    /\ slen s = S (length found)
    /\ (absent = [] <->
        forall key, key ∈ ["trace_id"; "missing_id"] ->
                    key ∈ Key <$> [f_trace]).
Proof.
  apply (GetFields_accounts_for_keys go_growcap store_trace
           (Set_ Background (SArr 0 0 1 1)) ["trace_id"; "missing_id"]
           [f_trace]).
  reflexivity.
Defined.

(** X13. [GetFields] only reads what exists: every slice holds afterwards
    what it held before, and the slice returned sits on a backing array
    that did not exist before the call, so that writing through it cannot
    reach the fields of any context. *)
Theorem GetFields_fresh_result growcap h ctx keys xs :
  shown h ctx = Some xs ->
  exists s h' a,
    GetFields growcap ctx keys h = Some (s, h')
    /\ sarr s = Some a /\ h !! a = None
    /\ forall t ys, elems h t = Some ys -> elems h' t = Some ys.
Proof.
  intros Hxs. unfold GetFields. go_step.
  set (c := length keys). set (p := length h).
  set (h1 := h ++ [replicate c zeroField]).
  assert (shown h1 ctx = Some xs) as Hxs1 by (by apply elems_app_Some).
  assert (sarr (GetAll ctx) <> Some p) as Hp
    by (intros Ha; pose proof (elems_bound _ _ _ _ Hxs Ha); unfold p; lia).
  assert (valid h1 (SArr p 0 0 c)) as Hv1
    by (apply valid_fresh; [lia|]; by rewrite length_replicate).
  assert (elems h1 (SArr p 0 0 c) = Some []) as He1
    by (by apply (elems_fresh h [] (replicate c zeroField) 0 c)).
  destruct (GetFields_loop_spec growcap ctx xs p c keys 0 [] [] h1
              Hxs1 Hp Hv1 He1)
    as (l' & h2 & Hloop & Hv2 & He2 & _ & _); [lia|].
  destruct (GetFields_loop_frame growcap ctx xs p c keys 0 [] [] h1
              (SArr p 0 l' c, [] ++ absent_keys xs keys) h2
              Hxs1 Hp Hv1 He1) as [Hlen2 Hfr2]; [lia|exact Hloop|].
  rewrite Hloop. simpl app.
  destruct (append_spec growcap (SArr p 0 l' c)
              [zap_Strings AbsentFieldsKey (absent_keys xs keys)]
              h2 _ Hv2 He2)
    as (s' & h' & Happ & _ & _ & _ & _).
  rewrite Happ.
  assert (length h1 = S p) as Hlen1
    by (unfold h1, p; rewrite length_app; simpl; lia).
  destruct (append_sarr growcap _ _ _ _ _ Happ) as [[Hs _]|[Hs _]].
  - exists s', h', p. split; [done|]. split; [done|].
    split; [by apply lookup_ge_None_2|].
    intros t ys Hys.
    apply (append_before_end growcap _ _ h2 s' h' t ys Hv2 Happ).
    + destruct t as [|a' o' n' c']; [done|]. simpl. left. intros ->.
      pose proof (elems_bound _ _ _ _ Hys eq_refl). unfold p in *. lia.
    + rewrite Hfr2; [by apply elems_app_Some|].
      intros Ha. pose proof (elems_bound _ _ _ _ Hys Ha). unfold p in *. lia.
  - exists s', h', (length h2). split; [done|]. split; [done|].
    split; [apply lookup_ge_None_2; lia|].
    intros t ys Hys.
    apply (append_before_end growcap _ _ h2 s' h' t ys Hv2 Happ).
    + destruct t as [|a' o' n' c']; [done|]. simpl. left. intros ->.
      pose proof (elems_bound _ _ _ _ Hys eq_refl). unfold p in *. lia.
    + rewrite Hfr2; [by apply elems_app_Some|].
      intros Ha. pose proof (elems_bound _ _ _ _ Hys Ha). unfold p in *. lia.
Qed.

Lemma GetFields_fresh_result_witness :
  exists s h' a,
    GetFields go_growcap (Set_ Background (SArr 0 0 1 1))
              ["trace_id"; "missing_id"] store_trace = Some (s, h')
    /\ sarr s = Some a /\ store_trace !! a = None
    /\ forall t ys, elems store_trace t = Some ys -> elems h' t = Some ys.
Proof.
  apply (GetFields_fresh_result go_growcap store_trace
           (Set_ Background (SArr 0 0 1 1)) ["trace_id"; "missing_id"]
           [f_trace]).
  reflexivity.
Defined.

(** ** Other keys in the context *)

Lemma bound_other_key ctx k v :
  k <> PkgKey loggerKey -> bound (WithValue ctx k v) = bound ctx.
Proof. intros Hk. unfold bound. simpl. by rewrite decide_False. Qed.

Lemma GetFields_loop_same_bound growcap c1 c2 :
  bound c1 = bound c2 ->
  forall keys fields absentKeys h,
    GetFields_loop growcap c1 keys fields absentKeys h
    = GetFields_loop growcap c2 keys fields absentKeys h.
Proof.
  intros Hb.
  assert (forall key, GetField c1 key = GetField c2 key) as HG
    by (intros key; unfold GetField; by rewrite Hb).
  induction keys as [|key keys IH]; intros fields absentKeys h.
  - reflexivity.
  - cbn [GetFields_loop]. rewrite HG.
    unfold mbind, M_bind, bind.
    destruct (GetField c2 key h) as [[[f ok] h1]|]; [|done].
    destruct ok; [|apply IH].
    destruct (append growcap fields [f] h1) as [[fields' h2]|]; [|done].
    apply IH.
Qed.

(** X14. Only the package's own key matters: a value bound under any other
    key neither hides nor changes the fields, so [GetAll], [GetField] and
    [GetFields] answer on the derived context as on its parent.  A value
    of another type bound under the package's key hides them. *)
Theorem other_keys_transparent growcap h ctx k v key keys :
  k <> PkgKey loggerKey ->
  GetAll (WithValue ctx k v) = GetAll ctx
  /\ GetField (WithValue ctx k v) key h = GetField ctx key h
  /\ GetFields growcap (WithValue ctx k v) keys h
     = GetFields growcap ctx keys h
  /\ forall n, GetAll (WithValue ctx (PkgKey loggerKey) (OtherVal n)) = SNil.
Proof.
  intros Hk. pose proof (bound_other_key ctx k v Hk) as Hb.
  split; [unfold GetAll; by rewrite Hb|].
  split; [unfold GetField; by rewrite Hb|].
  split; [|done].
  unfold GetFields. go_step.
  by rewrite (GetFields_loop_same_bound growcap _ ctx Hb).
Qed.

Lemma other_keys_transparent_witness :
  GetAll (WithValue (Set_ Background (SArr 0 0 1 1)) (ForeignKey 7)
                    (OtherVal 1))
  = SArr 0 0 1 1
  /\ GetField (WithValue (Set_ Background (SArr 0 0 1 1)) (ForeignKey 7)
                         (OtherVal 1)) "trace_id" store_trace
     = Some ((f_trace, true), store_trace).
Proof.
  destruct (other_keys_transparent go_growcap store_trace
              (Set_ Background (SArr 0 0 1 1)) (ForeignKey 7) (OtherVal 1)
              "trace_id" []) as (HG & HF & _); [done|].
  split; [exact HG|]. rewrite HF. reflexivity.
Defined.

(** ** The earlier revision of Append *)

(** X15. The [Append] of the earlier revision puts the new fields in front
    of those of the parent, so that on the context it returns [GetField]
    finds a new field with the key before any field of the parent. *)
Theorem Append_rev0_new_first growcap h ctx fields old xs key :
  valid h fields ->
  shown h ctx = Some old ->
  elems h fields = Some xs ->
  exists c h',
    Append_rev0 growcap ctx fields h = Some (c, h')
    /\ shown h' c = Some (xs ++ old)
    /\ GetField c key h'
       = Some (reported (match first_with_key key xs with
                         | Some f => Some f
                         | None => first_with_key key old
                         end), h').
Proof.
  intros Hv Hold Hxs.
  assert (exists s' h',
            Append_rev0 growcap ctx fields h
              = Some (WithValue ctx (PkgKey loggerKey) (FieldsVal s'), h')
            /\ elems h' s' = Some (xs ++ old)) as (s' & h' & -> & He').
  { destruct (bound ctx) as [s|] eqn:Hb.
    - rewrite (shown_bound _ _ _ Hb) in Hold.
      apply (Append_rev0_bound growcap h ctx s fields old xs Hb Hv Hold Hxs).
    - rewrite (shown_unbound _ _ Hb) in Hold. injection Hold as <-.
      exists fields, h. unfold Append_rev0. rewrite Hb, app_nil_r. done. }
  assert (shown h' (WithValue ctx (PkgKey loggerKey) (FieldsVal s'))
          = Some (xs ++ old)) as Hs
    by (by rewrite (shown_bound _ _ s') by apply bound_WithValue).
  do 2 eexists. split; [done|]. split; [done|].
  rewrite (GetField_shown _ _ key _ Hs).
  by rewrite GetField_scan_reported, first_with_key_app.
Qed.

Lemma Append_rev0_new_first_witness :
  exists c h',
    Append_rev0 go_growcap (Set_ Background (SArr 0 0 1 1)) (SArr 1 0 1 1)
                store_aa = Some (c, h')
    /\ shown h' c = Some [f_a2; f_a1]
    /\ GetField c "a" h' = Some ((f_a2, true), h').
Proof.
  apply (Append_rev0_new_first go_growcap store_aa
           (Set_ Background (SArr 0 0 1 1)) (SArr 1 0 1 1)
           [f_a1] [f_a2] "a"); [simpl; lia|reflexivity|reflexivity].
Defined.

(** X18. The [Append] of the earlier revision extends the slice it is
    given, not the one of the parent: it writes only behind the end of
    [fields].  Every slice on another backing array than [fields], and
    every slice that ends in front of the end of [fields], holds what it
    held; the parent shows what it showed when its own slice is one of
    these. *)
Theorem Append_rev0_writes_behind_fields growcap h ctx fields c h' :
  valid h fields ->
  Append_rev0 growcap ctx fields h = Some (c, h') ->
  (forall t ys, before_end t fields ->
     elems h t = Some ys -> elems h' t = Some ys)
  /\ (before_end (GetAll ctx) fields ->
      forall old, shown h ctx = Some old -> shown h' ctx = Some old).
Proof.
  intros Hv HA.
  assert (forall t ys, before_end t fields ->
            elems h t = Some ys -> elems h' t = Some ys) as Hfr.
  { revert HA. unfold Append_rev0. destruct (bound ctx) as [s|].
    - go_step. destruct (elems h s) as [old|]; [|done].
      destruct (append growcap fields old h) as [[s' h1]|] eqn:Happ;
        [|done].
      intros [= <- <-] t ys Ht Hys.
      by apply (append_before_end growcap fields old h s' h1 t ys Hv Happ).
    - by intros [= <- <-]. }
  split; [done|]. intros Hparent old Hold. by apply Hfr.
Qed.

Lemma Append_rev0_writes_behind_fields_witness :
  valid store_spare (SArr 0 0 1 2)
  /\ elems [[f_a1; f_b1]; [f_b1]; [f_c2]] (SArr 1 0 1 1) = Some [f_b1]
  /\ shown [[f_a1; f_b1]; [f_b1]; [f_c2]] (Set_ Background (SArr 1 0 1 1))
     = Some [f_b1].
Proof.
  split; [simpl; lia|].
  destruct (Append_rev0_writes_behind_fields go_growcap store_spare
              (Set_ Background (SArr 1 0 1 1)) (SArr 0 0 1 2)
              (WithValue (Set_ Background (SArr 1 0 1 1))
                         (PkgKey loggerKey) (FieldsVal (SArr 0 0 2 2)))
              [[f_a1; f_b1]; [f_b1]; [f_c2]]) as [Hfr Hparent].
  - simpl; lia.
  - reflexivity.
  - split.
    + apply Hfr; [simpl; left; lia|reflexivity].
    + apply Hparent; [simpl; left; lia|reflexivity].
Defined.

(** The condition on the parent's slice is needed: when [fields] sits on
    the parent's array and ends inside the parent's slice, the earlier
    [Append] overwrites the parent's fields.  Here the array holds
    [[a=1, b=1]] and a spare cell, the parent binds its first two cells and
    [fields] is its first cell with the whole capacity. *)
Lemma Append_rev0_overlap_rewrites_parent :
  exists c h',
    shown store_base (Set_ Background (SArr 0 0 2 2)) = Some [f_a1; f_b1]
    /\ Append_rev0 go_growcap (Set_ Background (SArr 0 0 2 2))
                   (SArr 0 0 1 3) store_base = Some (c, h')
    /\ shown h' c = Some [f_a1; f_a1; f_b1]
    /\ shown h' (Set_ Background (SArr 0 0 2 2)) = Some [f_a1; f_a1].
Proof. do 2 eexists. repeat split; reflexivity. Qed.

(** ** The helpers of the tests *)

Lemma entry_has_iff fields key value :
  entry_has fields key value = true
  <-> exists r, r ∈ fields /\ Key r = key /\ Str r = value.
Proof.
  induction fields as [|r rest IH]; simpl.
  - split; [done|]. by intros (r & ?%elem_of_nil & _).
  - destruct (decide (Key r = key /\ Str r = value)) as [Hr|Hr].
    + split; [|done]. intros _. exists r.
      split; [apply list_elem_of_here|done].
    + rewrite IH. split.
      * intros (r' & Hin & Hk). exists r'.
        split; [by apply list_elem_of_further|done].
      * intros (r' & [->|Hin]%elem_of_cons & Hk); [done|]. by exists r'.
Qed.

Lemma logs_have_iff logs key value :
  logs_have logs key value = true
  <-> exists log r, log ∈ logs /\ r ∈ EntryContext log
                    /\ Key r = key /\ Str r = value.
Proof.
  induction logs as [|log rest IH]; simpl.
  - split; [done|]. by intros (log & r & ?%elem_of_nil & _).
  - destruct (entry_has (EntryContext log) key value) eqn:E.
    + split; [|done]. intros _.
      apply entry_has_iff in E as (r & Hr & Hk).
      exists log, r. split; [apply list_elem_of_here|done].
    + rewrite IH. split.
      * intros (log' & r & Hin & Hr). exists log', r.
        split; [by apply list_elem_of_further|done].
      * intros (log' & r & [->|Hin]%elem_of_cons & Hr & Hk).
        -- assert (entry_has (EntryContext log) key value = true) as E'
             by (apply entry_has_iff; by exists r).
           congruence.
        -- by exists log', r.
Qed.

Lemma entry_has_key_iff fields key :
  entry_has_key fields key = true <-> exists r, r ∈ fields /\ Key r = key.
Proof.
  induction fields as [|r rest IH]; simpl.
  - split; [done|]. by intros (r & ?%elem_of_nil & _).
  - destruct (decide (Key r = key)) as [Hr|Hr].
    + split; [|done]. intros _. exists r.
      split; [apply list_elem_of_here|done].
    + rewrite IH. split.
      * intros (r' & Hin & Hk). exists r'.
        split; [by apply list_elem_of_further|done].
      * intros (r' & [->|Hin]%elem_of_cons & Hk); [done|]. by exists r'.
Qed.

Lemma logs_have_key_iff logs key :
  logs_have_key logs key = true
  <-> exists log r, log ∈ logs /\ r ∈ EntryContext log /\ Key r = key.
Proof.
  induction logs as [|log rest IH]; simpl.
  - split; [done|]. by intros (log & r & ?%elem_of_nil & _).
  - destruct (entry_has_key (EntryContext log) key) eqn:E.
    + split; [|done]. intros _.
      apply entry_has_key_iff in E as (r & Hr & Hk).
      exists log, r. split; [apply list_elem_of_here|done].
    + rewrite IH. split.
      * intros (log' & r & Hin & Hr). exists log', r.
        split; [by apply list_elem_of_further|done].
      * intros (log' & r & [->|Hin]%elem_of_cons & Hr & Hk).
        -- assert (entry_has_key (EntryContext log) key = true) as E'
             by (apply entry_has_key_iff; by exists r).
           congruence.
        -- by exists log', r.
Qed.

(** X16. [AssertLogEntryExist] succeeds exactly when some recorded entry
    carries a field with the key whose string value is the given one, or
    when key and value are both empty: the empty pair passes on any
    records, also on none. *)
Theorem AssertLogEntryExist_iff recorded key value :
  AssertLogEntryExist recorded key value = true
  <-> (exists log r, log ∈ recorded /\ r ∈ EntryContext log
                     /\ Key r = key /\ Str r = value)
      \/ (key = "" /\ value = "").
Proof.
  unfold AssertLogEntryExist, assert_Fail.
  rewrite <- logs_have_iff.
  destruct (logs_have recorded key value); [split; auto|].
  destruct (decide (key = "" /\ value = "")); split; auto.
  intros [?|?]; done.
Qed.

(** X17. [AssertLogEntryKeyExist] succeeds exactly when some recorded entry
    carries a field with the key; it follows from a successful
    [AssertLogEntryExist] unless that one passed on the empty pair. *)
Theorem AssertLogEntryKeyExist_iff recorded key :
  (AssertLogEntryKeyExist recorded key = true
   <-> exists log r, log ∈ recorded /\ r ∈ EntryContext log /\ Key r = key)
  /\ (forall value,
        AssertLogEntryExist recorded key value = true ->
        key <> "" \/ value <> "" ->
        AssertLogEntryKeyExist recorded key = true).
Proof.
  assert (AssertLogEntryKeyExist recorded key = true
          <-> exists log r, log ∈ recorded /\ r ∈ EntryContext log
                            /\ Key r = key) as Hiff.
  { unfold AssertLogEntryKeyExist, assert_Fail.
    rewrite <- logs_have_key_iff. by destruct (logs_have_key recorded key). }
  split; [done|]. intros value Hex Hne. apply Hiff.
  revert Hex. unfold AssertLogEntryExist, assert_Fail.
  destruct (logs_have recorded key value) eqn:E.
  - intros _. apply logs_have_iff in E as (log & r & Hl & Hr & Hk & _).
    by exists log, r.
  - destruct (decide (key = "" /\ value = "")) as [[-> ->]|]; [|done].
    by destruct Hne.
Qed.

Lemma AssertLogEntryKeyExist_iff_witness :
  AssertLogEntryKeyExist [mkEntry "just a test record" [f_trace]] "trace_id"
  = true.
Proof.
  destruct (AssertLogEntryKeyExist_iff
              [mkEntry "just a test record" [f_trace]] "trace_id")
    as [_ Himp].
  apply (Himp "T1"); [reflexivity|]. left. done.
Defined.
